(** * Radiology report labelling notebook: prompt construction and JSON extraction

    Shallow embedding of the code cells of
    [posts/llama-cpp-radiology-report-labeling.ipynb]:

    - the cells that build the user prompt and the two chat templates
      (f-strings over the notebook's global variables),
    - the template selection [if model == "llama-2": ... else: ...],
    - [json_from_str], i.e. [regex.findall] with the recursive pattern
      [\{(?:[^{}]*|(?R))*\}] followed by [json.loads] of the first match,
    - the cell that stores the extracted labels under a report id.

    A Python [str] is a sequence of Unicode code points and is modelled as a
    list of code points.  Python exceptions are modelled by an explicit
    [result] type. *)

From Stdlib Require Import List String Ascii NArith ZArith Lia Bool.
Import ListNotations.

Set Warnings "-register-all".

Local Open Scope N_scope.
Local Open Scope list_scope.

(** ** Text *)

Definition char := N.
Definition text := list char.

Definition ch (a : ascii) : char := N_of_ascii a.

Definition txt (s : string) : text := map ch (list_ascii_of_string s).

Definition DQUOTE : char := 34.
Definition BACKSLASH : char := 92.
Definition NL : char := 10.
Definition LBRACE : char := ch "{".
Definition RBRACE : char := ch "}".

(** JSON samples are written with an apostrophe where the text has a double
    quote: the second and the fourth character of [jtxt "{'a': 1}"] are
    double quotes. *)
Definition requote (c : char) : char := if c =? ch "'" then DQUOTE else c.
Definition jtxt (s : string) : text := map requote (txt s).

Fixpoint text_eqb (a b : text) : bool :=
  match a, b with
  | [], [] => true
  | x :: a', y :: b' => (x =? y) && text_eqb a' b'
  | _, _ => false
  end.

(** ** Python values and exceptions *)

Inductive exn : Set :=
| JSONDecodeError.

Inductive result (A : Type) : Type :=
| Ok (a : A)
| Raise (e : exn).
Arguments Ok {A} a.
Arguments Raise {A} e.

Definition bind {A B : Type} (m : result A) (k : A -> result B) : result B :=
  match m with
  | Ok a => k a
  | Raise e => Raise e
  end.

Notation "x <- m ;; k" := (bind m (fun x => k))
  (at level 61, m at next level, right associativity).

(** The values [json.loads] can build.  A float keeps the lexeme that is
    handed to [float(...)]; a dict keeps its items in insertion order. *)
Inductive pyval : Type :=
| PyNone
| PyBool (b : bool)
| PyInt (z : Z)
| PyFloat (lexeme : text)
| PyStr (s : text)
| PyList (l : list pyval)
| PyDict (items : list (text * pyval)).

(** [d[k] = v] on an insertion-ordered dict. *)
Fixpoint dict_set (k : text) (v : pyval) (d : list (text * pyval))
  : list (text * pyval) :=
  match d with
  | [] => [(k, v)]
  | (k', v') :: d' =>
      if text_eqb k k' then (k', v) :: d' else (k', v') :: dict_set k v d'
  end.

(** [dict(pairs)]: later pairs overwrite earlier ones. *)
Definition dict_of_pairs (pairs : list (text * pyval)) : list (text * pyval) :=
  fold_left (fun d kv => dict_set (fst kv) (snd kv) d) pairs [].

Fixpoint dict_get (k : text) (d : list (text * pyval)) : option pyval :=
  match d with
  | [] => None
  | (k', v) :: d' => if text_eqb k k' then Some v else dict_get k d'
  end.

(** ** [json.loads]

    The decoder of the Python standard library ([json.decoder] and
    [json.scanner], default options: strict strings, no hooks), written over
    the remaining input instead of an index into it.  The recursion of the
    decoder is bounded by a budget; [loads] gives it more than the length of
    the text, which is never used up ([JsonFacts.decode_fuel]).  The
    interpreter's own limit on the recursion depth is not modelled. *)

Module Json.

Inductive parse (A : Type) : Type :=
| Parsed (a : A) (rest : text)
| Fail
| Exhausted.
Arguments Parsed {A} a rest.
Arguments Fail {A}.
Arguments Exhausted {A}.

Definition is_ws (c : char) : bool :=
  (c =? ch " ") || (c =? 9) || (c =? 10) || (c =? 13).

Fixpoint skip_ws (s : text) : text :=
  match s with
  | c :: s' => if is_ws c then skip_ws s' else s
  | [] => []
  end.

Definition is_digit (c : char) : bool := (ch "0" <=? c) && (c <=? ch "9").

Definition hex_digit (c : char) : option N :=
  if (ch "0" <=? c) && (c <=? ch "9") then Some (c - ch "0")
  else if (ch "a" <=? c) && (c <=? ch "f") then Some (c - ch "a" + 10)
  else if (ch "A" <=? c) && (c <=? ch "F") then Some (c - ch "A" + 10)
  else None.

(** Four hexadecimal digits of a [\uXXXX] escape. *)
Definition decode_uXXXX (a b c d : char) : option N :=
  match hex_digit a, hex_digit b, hex_digit c, hex_digit d with
  | Some x, Some y, Some z, Some w => Some (((x * 16 + y) * 16 + z) * 16 + w)
  | _, _, _, _ => None
  end.

(** The [BACKSLASH] table of the decoder. *)
Definition backslash (e : char) : option char :=
  if e =? DQUOTE then Some DQUOTE
  else if e =? BACKSLASH then Some BACKSLASH
  else if e =? ch "/" then Some (ch "/")
  else if e =? ch "b" then Some 8
  else if e =? ch "f" then Some 12
  else if e =? ch "n" then Some 10
  else if e =? ch "r" then Some 13
  else if e =? ch "t" then Some 9
  else None.

Definition is_high_surrogate (u : N) : bool := (55296 <=? u) && (u <=? 56319).
Definition is_low_surrogate (u : N) : bool := (56320 <=? u) && (u <=? 57343).

(** [scanstring], entered after the opening quote; [acc] holds the decoded
    characters in reverse.  [None] is a [JSONDecodeError] (unterminated
    string, raw control character, invalid escape). *)
Fixpoint scanstring (s : text) (acc : text) : option (text * text) :=
  match s with
  | [] => None
  | c :: s' =>
      if c =? DQUOTE then Some (rev acc, s')
      else if c =? BACKSLASH then
        match s' with
        | [] => None
        | e :: s'' =>
            if e =? ch "u" then
              match s'' with
              | h1 :: h2 :: h3 :: h4 :: r =>
                  match decode_uXXXX h1 h2 h3 h4 with
                  | None => None
                  | Some uni =>
                      if is_high_surrogate uni then
                        match r with
                        | b :: u :: g1 :: g2 :: g3 :: g4 :: r' =>
                            if (b =? BACKSLASH) && (u =? ch "u") then
                              match decode_uXXXX g1 g2 g3 g4 with
                              | None => None
                              | Some uni2 =>
                                  if is_low_surrogate uni2 then
                                    scanstring r'
                                      (65536 + (uni - 55296) * 1024
                                       + (uni2 - 56320) :: acc)
                                  else scanstring r (uni :: acc)
                              end
                            else scanstring r (uni :: acc)
                        | _ => scanstring r (uni :: acc)
                        end
                      else scanstring r (uni :: acc)
                  end
              | _ => None
              end
            else
              match backslash e with
              | Some d => scanstring s'' (d :: acc)
              | None => None
              end
        end
      else if c <? 32 then None
      else scanstring s' (c :: acc)
  end.

Fixpoint span_digits (s : text) : text * text :=
  match s with
  | c :: s' =>
      if is_digit c then let (ds, r) := span_digits s' in (c :: ds, r)
      else ([], s)
  | [] => ([], [])
  end.

Definition int_of_digits (ds : text) : Z :=
  fold_left (fun acc c => (acc * 10 + Z.of_N (c - ch "0"))%Z) ds 0%Z.

(** [int(lexeme)] for the integer part of a number.  The limit the
    interpreter puts on the number of digits is not modelled. *)
Definition parse_int (lexeme : text) : Z :=
  match lexeme with
  | c :: ds => if c =? ch "-" then (- int_of_digits ds)%Z
               else int_of_digits lexeme
  | [] => 0%Z
  end.

(** The integer part of the number pattern: an optional minus sign, then
    either a single zero or a nonzero digit followed by digits. *)
Definition match_integer (s : text) : option (text * text) :=
  let (sign, s1) :=
    match s with
    | c :: s' => if c =? ch "-" then ([c], s') else ([], s)
    | [] => ([], s)
    end in
  match s1 with
  | c :: s2 =>
      if c =? ch "0" then Some (sign ++ [c], s2)
      else if is_digit c then
        let (ds, s3) := span_digits s2 in Some (sign ++ c :: ds, s3)
      else None
  | [] => None
  end.

(** The optional fraction: a dot followed by at least one digit. *)
Definition match_frac (s : text) : text * text :=
  match s with
  | p :: d :: s' =>
      if (p =? ch ".") && is_digit d then
        let (ds, r) := span_digits s' in (p :: d :: ds, r)
      else ([], s)
  | _ => ([], s)
  end.

(** The optional exponent: [e] or [E], an optional sign, at least one
    digit; without a digit nothing is consumed. *)
Definition match_exp (s : text) : text * text :=
  match s with
  | e :: s' =>
      if (e =? ch "e") || (e =? ch "E") then
        let (sign, s1) :=
          match s' with
          | c :: s'' =>
              if (c =? ch "-") || (c =? ch "+") then ([c], s'') else ([], s')
          | [] => ([], s')
          end in
        match span_digits s1 with
        | ([], _) => ([], s)
        | (ds, r) => (e :: sign ++ ds, r)
        end
      else ([], s)
  | [] => ([], s)
  end.

Definition match_number (s : text) : option (pyval * text) :=
  match match_integer s with
  | None => None
  | Some (integer, s1) =>
      let (frac, s2) := match_frac s1 in
      let (exp, s3) := match_exp s2 in
      match frac, exp with
      | [], [] => Some (PyInt (parse_int integer), s3)
      | _, _ => Some (PyFloat (integer ++ frac ++ exp), s3)
      end
  end.

(** [string[idx:idx + len(w)] == w], returning what follows. *)
Fixpoint strip_prefix (w s : text) : option text :=
  match w, s with
  | [], _ => Some s
  | x :: w', y :: s' => if x =? y then strip_prefix w' s' else None
  | _ :: _, [] => None
  end.

Section Containers.

(** [scan_once] at a smaller recursion budget. *)
Variable scan : text -> parse pyval.

(** The [while True] loop of [JSONObject], entered just after the opening
    quote of a key. *)
Fixpoint object_members (n : nat) (s : text) (pairs : list (text * pyval))
  : parse pyval :=
  match n with
  | O => Exhausted
  | S n' =>
      match scanstring s [] with
      | None => Fail
      | Some (key, s1) =>
          match skip_ws s1 with
          | c :: s2 =>
              if c =? ch ":" then
                match scan (skip_ws s2) with
                | Parsed value s3 =>
                    let pairs' := pairs ++ [(key, value)] in
                    match skip_ws s3 with
                    | d :: s4 =>
                        if d =? RBRACE then
                          Parsed (PyDict (dict_of_pairs pairs')) s4
                        else if d =? ch "," then
                          match skip_ws s4 with
                          | q :: s5 =>
                              if q =? DQUOTE then object_members n' s5 pairs'
                              else Fail
                          | [] => Fail
                          end
                        else Fail
                    | [] => Fail
                    end
                | Fail => Fail
                | Exhausted => Exhausted
                end
              else Fail
          | [] => Fail
          end
      end
  end.

(** [JSONObject], entered after the opening brace. *)
Definition JSONObject (n : nat) (s : text) : parse pyval :=
  match skip_ws s with
  | c :: s1 =>
      if c =? RBRACE then Parsed (PyDict []) s1
      else if c =? DQUOTE then object_members n s1 []
      else Fail
  | [] => Fail
  end.

(** The [while True] loop of [JSONArray], entered at the start of an
    element. *)
Fixpoint array_elements (n : nat) (s : text) (values : list pyval)
  : parse pyval :=
  match n with
  | O => Exhausted
  | S n' =>
      match scan s with
      | Parsed value s1 =>
          let values' := values ++ [value] in
          match skip_ws s1 with
          | d :: s2 =>
              if d =? ch "]" then Parsed (PyList values') s2
              else if d =? ch "," then array_elements n' (skip_ws s2) values'
              else Fail
          | [] => Fail
          end
      | Fail => Fail
      | Exhausted => Exhausted
      end
  end.

(** [JSONArray], entered after the opening bracket. *)
Definition JSONArray (n : nat) (s : text) : parse pyval :=
  match skip_ws s with
  | c :: s1 =>
      if c =? ch "]" then Parsed (PyList []) s1
      else array_elements n (skip_ws s) []
  | [] => Fail
  end.

End Containers.

Definition scan_constant (s : text) : parse pyval :=
  match strip_prefix (txt "null") s with
  | Some r => Parsed PyNone r
  | None =>
  match strip_prefix (txt "true") s with
  | Some r => Parsed (PyBool true) r
  | None =>
  match strip_prefix (txt "false") s with
  | Some r => Parsed (PyBool false) r
  | None =>
  match match_number s with
  | Some (v, r) => Parsed v r
  | None =>
  match strip_prefix (txt "NaN") s with
  | Some r => Parsed (PyFloat (txt "NaN")) r
  | None =>
  match strip_prefix (txt "Infinity") s with
  | Some r => Parsed (PyFloat (txt "Infinity")) r
  | None =>
  match strip_prefix (txt "-Infinity") s with
  | Some r => Parsed (PyFloat (txt "-Infinity")) r
  | None => Fail
  end end end end end end end.

(** [scan_once]: one JSON value at the head of [s]. *)
Fixpoint scan_once (fuel : nat) (s : text) : parse pyval :=
  match fuel with
  | O => Exhausted
  | S f =>
      match s with
      | [] => Fail
      | c :: s' =>
          if c =? DQUOTE then
            match scanstring s' [] with
            | Some (v, r) => Parsed (PyStr v) r
            | None => Fail
            end
          else if c =? LBRACE then JSONObject (scan_once f) f s'
          else if c =? ch "[" then JSONArray (scan_once f) f s'
          else scan_constant s
      end
  end.

(** [JSONDecoder.decode]: leading whitespace, one value, trailing
    whitespace, end of input. *)
Definition decode (fuel : nat) (s : text) : parse pyval :=
  match scan_once fuel (skip_ws s) with
  | Parsed v r =>
      match skip_ws r with
      | [] => Parsed v []
      | _ :: _ => Fail
      end
  | Fail => Fail
  | Exhausted => Exhausted
  end.

(** [json.loads(s)] for a [str] argument.  A text that starts with the byte
    order mark U+FEFF is refused. *)
Definition loads (s : text) : result pyval :=
  match s with
  | 65279 :: _ => Raise JSONDecodeError
  | _ =>
      match decode (S (List.length s)) s with
      | Parsed v _ => Ok v
      | Fail => Raise JSONDecodeError
      | Exhausted => Raise JSONDecodeError
      end
  end.

End Json.

(** ** The pattern of [json_from_str] and [findall] *)

Module Regex.

(** Patterns with the constructs [json_from_str] uses: a literal character,
    a negated character class, alternation, concatenation, the star and
    [(?R)], the recursion into the whole pattern. *)
Inductive re : Type :=
| Lit (c : char)
| NoneOf (cs : list char)
| Alt (a b : re)
| Cat (a b : re)
| Star (a : re)
| Recurse.

(** [matches whole r w]: the word [w] is matched by the sub-pattern [r] of
    the pattern [whole]. *)
Inductive matches (whole : re) : re -> text -> Prop :=
| m_lit : forall c, matches whole (Lit c) [c]
| m_noneof : forall cs c, ~ In c cs -> matches whole (NoneOf cs) [c]
| m_alt_l : forall a b w, matches whole a w -> matches whole (Alt a b) w
| m_alt_r : forall a b w, matches whole b w -> matches whole (Alt a b) w
| m_cat : forall a b u v,
    matches whole a u -> matches whole b v -> matches whole (Cat a b) (u ++ v)
| m_star_nil : forall a, matches whole (Star a) []
| m_star_step : forall a u v,
    matches whole a u -> matches whole (Star a) v ->
    matches whole (Star a) (u ++ v)
| m_recurse : forall w, matches whole whole w -> matches whole Recurse w.

(** [[^{}]*] *)
Definition plain : re := Star (NoneOf [LBRACE; RBRACE]).

(** [(?:[^{}]*|(?R))*] *)
Definition body : re := Star (Alt plain Recurse).

(** [expr = re.compile(r'\{(?:[^{}]*|(?R))*\}')] *)
Definition expr : re := Cat (Lit LBRACE) (Cat body (Lit RBRACE)).

(** A text is a match of [expr]. *)
Definition span (w : text) : Prop := matches expr expr w.

Definition is_brace (c : char) : bool := (c =? LBRACE) || (c =? RBRACE).

Definition cons_fst (c : char) (p : text * text) : text * text :=
  (c :: fst p, snd p).

(** The scan for the brace that closes the span: [depth] is the number of
    braces opened inside the span and not closed yet.  Returns what is
    consumed, closing brace included, and what follows. *)
Fixpoint close (depth : nat) (s : text) : option (text * text) :=
  match s with
  | [] => None
  | c :: s' =>
      if c =? RBRACE then
        match depth with
        | O => Some ([c], s')
        | S d => option_map (cons_fst c) (close d s')
        end
      else if c =? LBRACE then option_map (cons_fst c) (close (S depth) s')
      else option_map (cons_fst c) (close depth s')
  end.

(** The match of [expr] that starts at the head of [s], with the rest. *)
Definition match_at (s : text) : option (text * text) :=
  match s with
  | c :: s' =>
      if c =? LBRACE then option_map (cons_fst c) (close 0 s') else None
  | [] => None
  end.

(** [expr.findall(s)]: the matches of the left-to-right scan, each search
    resuming where the previous match ended.  [skip] counts the characters
    of the current match still to pass over.  The pattern has no group, so
    the items are the matched texts.  [match_at] is the match the engine
    finds at a position: it is a match of the pattern whenever there is one
    ([RegexFacts.match_at_spec]) and there is never a second one
    ([RegexFacts.span_prefix_free]), so the order in which a backtracking
    engine tries the alternatives plays no part. *)
Fixpoint findall_from (skip : nat) (s : text) : list text :=
  match s with
  | [] => []
  | _ :: s' =>
      match skip with
      | S k => findall_from k s'
      | O =>
          match match_at s with
          | Some (m, _) => m :: findall_from (List.length m - 1) s'
          | None => findall_from 0 s'
          end
      end
  end.

Definition findall (s : text) : list text := findall_from 0 s.

(** The leftmost match: what precedes it, the match, what follows. *)
Fixpoint search (s : text) : option (text * text * text) :=
  match match_at s with
  | Some (m, r) => Some ([], m, r)
  | None =>
      match s with
      | [] => None
      | c :: s' =>
          match search s' with
          | Some (pre, m, r) => Some (c :: pre, m, r)
          | None => None
          end
      end
  end.

(** *** Notions used to relate [close] to the pattern *)

(** [closes d m]: [m] is made of [d + 1] bodies, each followed by a closing
    brace. *)
Inductive closes : nat -> text -> Prop :=
| closes_O : forall b, matches expr body b -> closes 0 (b ++ [RBRACE])
| closes_S : forall d b m,
    matches expr body b -> closes d m -> closes (S d) (b ++ RBRACE :: m).

Definition prepend (w : text) (p : text * text) : text * text :=
  (w ++ fst p, snd p).

(** [w] leaves the depth where it found it. *)
Definition neutral (w : text) : Prop :=
  forall d r, close d (w ++ r) = option_map (prepend w) (close d r).

(** What a derivation says about the word, for each sub-pattern of
    [expr]. *)
Definition shape (r : re) (w : text) : Prop :=
  (r = Lit LBRACE -> w = [LBRACE]) /\
  (r = Lit RBRACE -> w = [RBRACE]) /\
  (r = NoneOf [LBRACE; RBRACE] -> neutral w) /\
  (r = plain -> neutral w) /\
  (r = Recurse -> neutral w) /\
  (r = Alt plain Recurse -> neutral w) /\
  (r = body -> neutral w) /\
  (r = Cat body (Lit RBRACE) -> exists b, w = b ++ [RBRACE] /\ neutral b) /\
  (r = expr -> exists b, w = LBRACE :: b ++ [RBRACE] /\ neutral b).

(** [m] as a whole is a match of [expr]. *)
Definition is_span (m : text) : bool :=
  match match_at m with
  | Some (_, []) => true
  | _ => false
  end.

(** [m], found between [pre] and [post], is the first match of the
    left-to-right scan: no match of the pattern starts inside [pre]. *)
Definition first_span (pre m post : text) : Prop :=
  span m /\
  forall p1 c p2 w r,
    pre = p1 ++ c :: p2 -> c :: p2 ++ m ++ post = w ++ r -> ~ span w.

(** The pattern matches nowhere in [s]. *)
Definition no_span (s : text) : Prop :=
  forall pre m post, s = pre ++ m ++ post -> ~ span m.


(** A text without unbalanced braces: every brace of [s] has its partner.
    The depth, [depth] at the start, never drops below zero and ends at
    zero. *)
Fixpoint braces_balanced_from (depth : nat) (s : text) : bool :=
  match s with
  | [] => Nat.eqb depth 0
  | c :: s' =>
      if c =? LBRACE then braces_balanced_from (S depth) s'
      else if c =? RBRACE then
        match depth with
        | O => false
        | S d => braces_balanced_from d s'
        end
      else braces_balanced_from depth s'
  end.

Definition braces_balanced (s : text) : bool := braces_balanced_from 0 s.


End Regex.

(** ** [json_from_str] *)

Definition json_from_str (s : text) : result pyval :=
  let res := Regex.findall s in
  match res with
  | m :: _ => Json.loads m
  | [] => Ok PyNone
  end.

(** * The notebook *)

Module Notebook.

(** The global variables the code cells read and assign. *)
Record globals : Type := {
  model : text;
  model_name : text;
  model_basename : text;
  system : text;
  schema : text;
  report_text : text;
  additional_instructions : text;
  prompt : text;
  llama2_prompt_template : text;
  mistral_prompt_template : text;
  full_prompt : text;
  res_txt : text;
  id : Z;
  labels : pyval;
  result_dict : list (Z * pyval)
}.

(** The start of the runs computed below.  A variable that no cell has
    assigned yet holds an empty value here; reading such a variable, which
    raises [NameError] in the kernel, is not modelled. *)
Definition fresh : globals := {|
  model := []; model_name := []; model_basename := []; system := [];
  schema := []; report_text := []; additional_instructions := [];
  prompt := []; llama2_prompt_template := []; mistral_prompt_template := [];
  full_prompt := []; res_txt := []; id := 0%Z; labels := PyNone;
  result_dict := []
|}.

(** A code cell runs on the globals and either leaves new globals or
    raises.  What the kernel keeps in its globals after an exception is not
    modelled: a run that raises has no globals. *)
Definition cell : Type := globals -> result globals.

Fixpoint run (cells : list cell) (g : globals) : result globals :=
  match cells with
  | [] => Ok g
  | c :: cells' => g' <- c g ;; run cells' g'
  end.

(** ** "Select the model you'd like to test"; [form] is the value of the
    [model] form field. *)
Definition select_model (form : text) : cell := fun g =>
  let model' := form in
  Ok {| model := model';
        model_name :=
          if text_eqb model' (txt "llama-2")
          then txt "TheBloke/Llama-2-7b-Chat-GGUF"
          else txt "TheBloke/Mistral-7B-Instruct-v0.1-GGUF";
        model_basename :=
          if text_eqb model' (txt "llama-2")
          then txt "llama-2-7b-chat.Q4_K_M.gguf"
          else txt "mistral-7b-instruct-v0.1.Q4_K_M.gguf";
        system := system g; schema := schema g;
        report_text := report_text g;
        additional_instructions := additional_instructions g;
        prompt := prompt g;
        llama2_prompt_template := llama2_prompt_template g;
        mistral_prompt_template := mistral_prompt_template g;
        full_prompt := full_prompt g; res_txt := res_txt g; id := id g;
        labels := labels g; result_dict := result_dict g |}.

(** ** "System prompt" *)
Definition system_prompt (form : text) : cell := fun g =>
  Ok {| model := model g; model_name := model_name g;
        model_basename := model_basename g;
        system := form;
        schema := schema g; report_text := report_text g;
        additional_instructions := additional_instructions g;
        prompt := prompt g;
        llama2_prompt_template := llama2_prompt_template g;
        mistral_prompt_template := mistral_prompt_template g;
        full_prompt := full_prompt g; res_txt := res_txt g; id := id g;
        labels := labels g; result_dict := result_dict g |}.

(** ** "Construct JSON schema": the schema is a string literal, [literal],
    assigned to [schema]. *)
Definition construct_schema (literal : text) : cell := fun g =>
  Ok {| model := model g; model_name := model_name g;
        model_basename := model_basename g; system := system g;
        schema := literal;
        report_text := report_text g;
        additional_instructions := additional_instructions g;
        prompt := prompt g;
        llama2_prompt_template := llama2_prompt_template g;
        mistral_prompt_template := mistral_prompt_template g;
        full_prompt := full_prompt g; res_txt := res_txt g; id := id g;
        labels := labels g; result_dict := result_dict g |}.

(** The literal of the notebook. *)
Definition schema_literal : text :=
  [NL] ++ jtxt "{" ++ [NL]
  ++ jtxt "    'cardiomegaly': { 'type': 'boolean' }," ++ [NL]
  ++ jtxt "    'lung_opacity': { 'type': 'boolean' }," ++ [NL]
  ++ jtxt "    'pneumothorax': { 'type': 'boolean' }," ++ [NL]
  ++ jtxt "    'pleural_effusion': { 'type': 'boolean' }," ++ [NL]
  ++ jtxt "    'pulmonary_edema': { 'type': 'boolean' }," ++ [NL]
  ++ jtxt "    'abnormal_study': { 'type': 'boolean' }" ++ [NL]
  ++ jtxt "}" ++ [NL].

(** ** "Provide a sample chest radiograph report" *)
Definition sample_report (form : text) : cell := fun g =>
  Ok {| model := model g; model_name := model_name g;
        model_basename := model_basename g; system := system g;
        schema := schema g;
        report_text := form;
        additional_instructions := additional_instructions g;
        prompt := prompt g;
        llama2_prompt_template := llama2_prompt_template g;
        mistral_prompt_template := mistral_prompt_template g;
        full_prompt := full_prompt g; res_txt := res_txt g; id := id g;
        labels := labels g; result_dict := result_dict g |}.

Definition FENCE : text := txt "```".

Definition REQUEST : text :=
  txt "Please extract the findings from the preceding text radiology report using the following JSON schema:".

(** The f-string assigned to [prompt]. *)
Definition prompt_fstring (report_text schema additional_instructions : text)
  : text :=
  [NL]
  ++ FENCE ++ report_text ++ FENCE ++ [NL]
  ++ REQUEST ++ [NL]
  ++ FENCE ++ schema ++ FENCE ++ [NL]
  ++ additional_instructions ++ [NL].

(** ** "Construct User prompt" *)
Definition construct_user_prompt (form : text) : cell := fun g =>
  let additional_instructions' := form in
  Ok {| model := model g; model_name := model_name g;
        model_basename := model_basename g; system := system g;
        schema := schema g; report_text := report_text g;
        additional_instructions := additional_instructions';
        prompt :=
          prompt_fstring (report_text g) (schema g) additional_instructions';
        llama2_prompt_template := llama2_prompt_template g;
        mistral_prompt_template := mistral_prompt_template g;
        full_prompt := full_prompt g; res_txt := res_txt g; id := id g;
        labels := labels g; result_dict := result_dict g |}.

(** The f-string assigned to [llama2_prompt_template]. *)
Definition llama2_fstring (system prompt : text) : text :=
  txt "[INST] <<SYS>>" ++ [NL]
  ++ system ++ [NL]
  ++ txt "<</SYS>>" ++ [NL]
  ++ prompt ++ txt "[/INST]" ++ [NL].

(** The f-string assigned to [mistral_prompt_template]. *)
Definition mistral_fstring (system prompt : text) : text :=
  txt "<s>[INST] " ++ system ++ txt " " ++ prompt ++ txt " [/INST]".

(** ** "Llama-2-Chat & Mistral-7B-Instruct-v0.1 prompt templates" *)
Definition prompt_templates : cell := fun g =>
  Ok {| model := model g; model_name := model_name g;
        model_basename := model_basename g; system := system g;
        schema := schema g; report_text := report_text g;
        additional_instructions := additional_instructions g;
        prompt := prompt g;
        llama2_prompt_template := llama2_fstring (system g) (prompt g);
        mistral_prompt_template := mistral_fstring (system g) (prompt g);
        full_prompt := full_prompt g; res_txt := res_txt g; id := id g;
        labels := labels g; result_dict := result_dict g |}.

(** ** "Generate LLM response and print response text", first statement:
    the choice of the template. *)
Definition select_template : cell := fun g =>
  let full_prompt' :=
    if text_eqb (model g) (txt "llama-2")
    then llama2_prompt_template g
    else mistral_prompt_template g in
  Ok {| model := model g; model_name := model_name g;
        model_basename := model_basename g; system := system g;
        schema := schema g; report_text := report_text g;
        additional_instructions := additional_instructions g;
        prompt := prompt g;
        llama2_prompt_template := llama2_prompt_template g;
        mistral_prompt_template := mistral_prompt_template g;
        full_prompt := full_prompt';
        res_txt := res_txt g; id := id g;
        labels := labels g; result_dict := result_dict g |}.

(** The rest of the cell: the completion of [full_prompt] by the model.
    [lcpp_llm] stands for the loaded model with the sampling settings of the
    cell, in a run where the call returns: what it answers is not
    constrained, and a call that raises is not modelled.  Neither are the
    cells that install, import, download and load the model. *)
Definition complete (lcpp_llm : text -> text) : cell := fun g =>
  Ok {| model := model g; model_name := model_name g;
        model_basename := model_basename g; system := system g;
        schema := schema g; report_text := report_text g;
        additional_instructions := additional_instructions g;
        prompt := prompt g;
        llama2_prompt_template := llama2_prompt_template g;
        mistral_prompt_template := mistral_prompt_template g;
        full_prompt := full_prompt g;
        res_txt := lcpp_llm (full_prompt g);
        id := id g; labels := labels g; result_dict := result_dict g |}.

Definition generate_response (lcpp_llm : text -> text) : cell := fun g =>
  g' <- select_template g ;; complete lcpp_llm g'.

(** ** "Assign an ID number to the report and associate extracted labels
    with the report ID" *)
Definition assign_labels : cell := fun g =>
  let id' := 1%Z in
  labels' <- json_from_str (res_txt g) ;;
  Ok {| model := model g; model_name := model_name g;
        model_basename := model_basename g; system := system g;
        schema := schema g; report_text := report_text g;
        additional_instructions := additional_instructions g;
        prompt := prompt g;
        llama2_prompt_template := llama2_prompt_template g;
        mistral_prompt_template := mistral_prompt_template g;
        full_prompt := full_prompt g; res_txt := res_txt g;
        id := id';
        labels := labels';
        result_dict := [(id', labels')] |}.

(** The cells in notebook order, from the form values and the model. *)
Definition notebook (model_form system_form schema_literal report_form
                     instructions_form : text) (lcpp_llm : text -> text)
  : list cell :=
  [ select_model model_form;
    system_prompt system_form;
    construct_schema schema_literal;
    sample_report report_form;
    construct_user_prompt instructions_form;
    prompt_templates;
    generate_response lcpp_llm;
    assign_labels ].

(** The finding names a schema text declares, when it is a JSON object. *)
Definition schema_keys (schema : text) : list text :=
  match Json.loads schema with
  | Ok (PyDict items) => map fst items
  | _ => []
  end.

(** [d[k]] for the result dict. *)
Fixpoint lookup (k : Z) (d : list (Z * pyval)) : option pyval :=
  match d with
  | [] => None
  | (k', v) :: d' => if Z.eqb k k' then Some v else lookup k d'
  end.

(** [needle] occurs in [s] as a contiguous substring. *)
Definition substring (needle s : text) : Prop :=
  exists pre post, s = pre ++ needle ++ post.

(** The globals after [cells] have run, [g] itself when one of them
    raises. *)
Definition after (cells : list cell) (g : globals) : globals :=
  match run cells g with
  | Ok g' => g'
  | Raise _ => g
  end.

(** The form values of the notebook. *)
Definition system_form : text :=
  txt "You are an expert radiologist's assistant, skilled in analyzing radiology reports. Please first provide a response to any specific requests. Then explain your reasoning.".

Definition report_form : text :=
  txt "No focal consolidation, pneumothorax, or pleural effusion. Cardiomediastinal silhouette is stable and unremarkable. No acute osseous abnormalities are identified. No acute cardiopulmonary abnormality.".

Definition instructions_form : text :=
  txt "Note that 'lung_opacity' may include nodule, mass, atelectasis, or consolidation.".

(** The response recorded in the notebook, up to the end of its first
    paragraph of explanation. *)
Definition recorded_response : text :=
  txt "Of course! I'd be happy to help you analyze the radiology report. Here are my findings based on the JSON schema provided:" ++ [NL]
  ++ jtxt "{" ++ [NL]
  ++ jtxt "'cardiomegaly': false," ++ [NL]
  ++ jtxt "'lung_opacity': true," ++ [NL]
  ++ jtxt "'pneumothorax': false," ++ [NL]
  ++ jtxt "'pleural_effusion': false," ++ [NL]
  ++ jtxt "'pulmonary_rama': false," ++ [NL]
  ++ jtxt "'abnormal_study': true" ++ [NL]
  ++ jtxt "}" ++ [NL]
  ++ txt "Explanation:" ++ [NL]
  ++ txt "The report states that there is no focal consolidation, pneumothorax, or pleural effusion." ++ [NL].

End Notebook.

(** ** Notions for the further properties *)

Module Layout.

(** The text made of the gaps and the matches in turn, then [tail]. *)
Fixpoint interleave (gaps ms : list text) (tail : text) : text :=
  match gaps, ms with
  | g :: gaps', m :: ms' => g ++ m ++ interleave gaps' ms' tail
  | _, _ => tail
  end.

End Layout.

(** ** Flat objects of flags

    The shape of the answer the notebook asks for: an object whose names
    are plain strings and whose values are [true] or [false], with any JSON
    whitespace between the tokens. *)

Module Flat.

Record member : Type := {
  lead : text;
  name : text;
  mid : text;
  gap : text;
  flag : bool;
  trail : text
}.

Definition literal (b : bool) : text := if b then txt "true" else txt "false".

(** [lead "name" mid : gap flag trail] *)
Definition render_member (m : member) : text :=
  lead m ++ DQUOTE :: name m ++ DQUOTE :: mid m
  ++ ch ":" :: gap m ++ literal (flag m) ++ trail m.

Fixpoint render_tail (ms : list member) : text :=
  match ms with
  | [] => []
  | m :: ms' => ch "," :: render_member m ++ render_tail ms'
  end.

(** The members between braces, separated by commas; [inner] is what an
    object without members has between its braces. *)
Definition render_object (inner : text) (ms : list member) : text :=
  LBRACE
  :: match ms with
     | [] => inner
     | m :: ms' => render_member m ++ render_tail ms'
     end
  ++ [RBRACE].

Definition entry (m : member) : text * pyval := (name m, PyBool (flag m)).

(** JSON whitespace only. *)
Definition blank (w : text) : Prop := Forall (fun c => Json.is_ws c = true) w.

(** A character that stands for itself in a JSON string and is no brace. *)
Definition plain_char (c : char) : bool :=
  (32 <=? c) && negb (c =? DQUOTE) && negb (c =? BACKSLASH)
  && negb (Regex.is_brace c).

Definition well_formed (m : member) : Prop :=
  blank (lead m) /\ Forall (fun c => plain_char c = true) (name m) /\
  blank (mid m) /\ blank (gap m) /\ blank (trail m).

End Flat.

(** ** The prompt the cells compose *)

Module Composed.
Import Notebook.

Definition BACKTICK : char := ch "`".


(** The cells from the choice of the model to the choice of the template. *)
Definition compose_cells (family sys literal report instructions : text)
  : list cell :=
  [ select_model family; system_prompt sys; construct_schema literal;
    sample_report report; construct_user_prompt instructions;
    prompt_templates; select_template ].

End Composed.

(** ** Counting braces *)

Module Depth.

(** The nesting depth at the end of [w]: every opening brace counts one up
    and every closing brace one down, wherever it stands; no other
    character counts. *)
Fixpoint depth (w : text) : Z :=
  match w with
  | [] => 0%Z
  | c :: w' =>
      let step : Z :=
        if c =? LBRACE then 1%Z else if c =? RBRACE then (-1)%Z else 0%Z in
      (step + depth w')%Z
  end.


End Depth.

(** ** Flat objects of strings

    Objects whose values are strings written without escapes.  The values
    may hold braces, as long as every brace of a value has its partner in
    that value. *)

Module Quoted.

Record member : Type := {
  lead : text;
  name : text;
  mid : text;
  gap : text;
  value : text;
  trail : text
}.

(** [lead "name" mid : gap "value" trail] *)
Definition render_member (m : member) : text :=
  lead m ++ DQUOTE :: name m ++ DQUOTE :: mid m
  ++ ch ":" :: gap m ++ DQUOTE :: value m ++ DQUOTE :: trail m.

Fixpoint render_tail (ms : list member) : text :=
  match ms with
  | [] => []
  | m :: ms' => ch "," :: render_member m ++ render_tail ms'
  end.

Definition render_object (inner : text) (ms : list member) : text :=
  LBRACE
  :: match ms with
     | [] => inner
     | m :: ms' => render_member m ++ render_tail ms'
     end
  ++ [RBRACE].

Definition entry (m : member) : text * pyval := (name m, PyStr (value m)).

(** A character that stands for itself in a JSON string; braces are among
    them. *)
Definition raw_char (c : char) : bool :=
  (32 <=? c) && negb (c =? DQUOTE) && negb (c =? BACKSLASH).

Definition well_formed (m : member) : Prop :=
  Flat.blank (lead m) /\
  Forall (fun c => Flat.plain_char c = true) (name m) /\
  Flat.blank (mid m) /\ Flat.blank (gap m) /\ Flat.blank (trail m) /\
  Forall (fun c => raw_char c = true) (value m) /\
  Regex.braces_balanced (value m) = true.

End Quoted.

(** * Properties of the decoder: the recursion budget *)

Module JsonFacts.
Import Json.

Local Abbreviation len := (@List.length char) (only parsing).

Lemma skip_ws_le (s : text) : (len (skip_ws s) <= len s)%nat.
Proof.
  induction s as [| c s IH]; simpl; [lia |].
  destruct (is_ws c); simpl; lia.
Qed.

Lemma scanstring_shorter (n : nat) :
  forall s acc v r,
    (len s <= n)%nat -> scanstring s acc = Some (v, r) ->
    (len r < len s)%nat.
Proof.
  induction n as [| n IH]; intros s acc v r Hn H.
  - destruct s; [discriminate | simpl in Hn; lia].
  - destruct s as [| c s]; [discriminate |].
    cbn [scanstring] in H. simpl in Hn.
    destruct (c =? DQUOTE). { inversion H; subst; simpl; lia. }
    destruct (c =? BACKSLASH).
    2:{ destruct (c <? 32); [discriminate|]. apply IH in H; simpl in *; lia. }
    destruct s as [| e s]; [discriminate |].
    destruct (e =? ch "u").
    2:{ destruct (backslash e); [| discriminate]. apply IH in H; simpl in *; lia. }
    destruct s as [| h1 [| h2 [| h3 [| h4 s]]]]; try discriminate.
    destruct (decode_uXXXX h1 h2 h3 h4) as [uni |]; [| discriminate].
    assert (Hs : forall t a, (len t <= len s)%nat ->
                 scanstring t a = Some (v, r) ->
                 (len r <
                  len (c :: e :: h1 :: h2 :: h3 :: h4 :: s))%nat).
    { intros t a Ht Hscan. apply IH in Hscan; cbn [List.length] in *; lia. }
    destruct (is_high_surrogate uni); [| apply Hs in H; trivial].
    destruct s as [| b [| u [| g1 [| g2 [| g3 [| g4 r']]]]]];
      try (apply Hs in H; trivial; fail).
    destruct ((b =? BACKSLASH) && (u =? ch "u")); [| apply Hs in H; trivial].
    destruct (decode_uXXXX g1 g2 g3 g4) as [uni2 |]; [| discriminate].
    destruct (is_low_surrogate uni2); apply Hs in H; trivial; simpl; lia.
Qed.

Lemma strip_prefix_length (w : text) :
  forall s r, strip_prefix w s = Some r -> len s = (len w + len r)%nat.
Proof.
  induction w as [| x w IH]; intros s r H; simpl in H.
  - now inversion H.
  - destruct s as [| y s]; [discriminate |].
    destruct (x =? y); [| discriminate]. simpl. f_equal. now apply IH.
Qed.

Lemma span_digits_le (s : text) :
  (len (snd (span_digits s)) <= len s)%nat.
Proof.
  induction s as [| c s IH]; simpl; [lia |].
  destruct (is_digit c); simpl; [| lia].
  destruct (span_digits s); simpl in *; lia.
Qed.

Lemma match_integer_shorter (s i r : text) :
  match_integer s = Some (i, r) -> (len r < len s)%nat.
Proof.
  assert (Hd : forall c t i r,
             match t with
             | [] => None
             | d :: t' =>
                 if d =? ch "0" then Some (c ++ [d], t')
                 else if is_digit d then
                   let (ds, t3) := span_digits t' in Some (c ++ d :: ds, t3)
                 else None
             end = Some (i, r) -> (len r < len t)%nat).
  { intros c [| d t] j q H; [discriminate |].
    destruct (d =? ch "0"); [inversion H; subst; simpl; lia |].
    destruct (is_digit d); [| discriminate].
    pose proof (span_digits_le t) as Hs.
    destruct (span_digits t). inversion H; subst. simpl in *. lia. }
  unfold match_integer. intros H.
  destruct s as [| c s]; [discriminate |].
  destruct (c =? ch "-").
  - apply Hd in H. simpl. lia.
  - apply (Hd [] (c :: s)) in H. exact H.
Qed.

Lemma match_frac_le (s : text) : (len (snd (match_frac s)) <= len s)%nat.
Proof.
  unfold match_frac. destruct s as [| p [| d s]]; [simpl; lia | simpl; lia |].
  destruct ((p =? ch ".") && is_digit d); [| simpl; lia].
  pose proof (span_digits_le s) as Hs.
  destruct (span_digits s). simpl in *. lia.
Qed.

Lemma match_exp_le (s : text) : (len (snd (match_exp s)) <= len s)%nat.
Proof.
  unfold match_exp. destruct s as [| e s]; [simpl; lia |].
  destruct ((e =? ch "e") || (e =? ch "E")); [| simpl; lia].
  destruct s as [| c s]; [simpl; lia |].
  destruct ((c =? ch "-") || (c =? ch "+")).
  - pose proof (span_digits_le s) as Hs.
    destruct (span_digits s) as [[| d ds] r]; simpl in *; lia.
  - pose proof (span_digits_le (c :: s)) as Hs.
    destruct (span_digits (c :: s)) as [[| d ds] r]; simpl in *; lia.
Qed.

Lemma match_number_shorter (s r : text) (v : pyval) :
  match_number s = Some (v, r) -> (len r < len s)%nat.
Proof.
  unfold match_number. intros H.
  destruct (match_integer s) as [[i s1] |] eqn:Ei; [| discriminate].
  apply match_integer_shorter in Ei.
  pose proof (match_frac_le s1) as Hf.
  destruct (match_frac s1) as [fr s2].
  pose proof (match_exp_le s2) as He.
  destruct (match_exp s2) as [ex s3]. simpl in *.
  destruct fr, ex; inversion H; subst; lia.
Qed.

Lemma scan_constant_shorter (s r : text) (v : pyval) :
  scan_constant s = Parsed v r -> (len r < len s)%nat.
Proof.
  unfold scan_constant. intros H.
  repeat match type of H with
  | context [strip_prefix ?w s] =>
      let E := fresh "E" in
      destruct (strip_prefix w s) eqn:E;
      [apply strip_prefix_length in E; inversion H; subst;
       simpl in E; lia |]
  | context [match_number s] =>
      let E := fresh "E" in
      destruct (match_number s) as [[? ?] |] eqn:E;
      [apply match_number_shorter in E; inversion H; subst; lia |]
  end.
  discriminate.
Qed.

Lemma scanstring_consumes (s acc v r : text) :
  scanstring s acc = Some (v, r) -> (len r < len s)%nat.
Proof. apply (scanstring_shorter (len s)). lia. Qed.

(** The loops of the containers, over a [scan] that consumes input. *)
Section ContainersConsume.

Variable scan : text -> parse pyval.
Hypothesis scan_consumes :
  forall t v r, scan t = Parsed v r -> (len r < len t)%nat.

Lemma object_members_consumes (n : nat) :
  forall s pairs v r,
    object_members scan n s pairs = Parsed v r -> (len r < len s)%nat.
Proof.
  induction n as [| n IH]; intros s pairs v r H; [discriminate |].
  cbn [object_members] in H.
  destruct (scanstring s []) as [[key s1] |] eqn:Ek; [| discriminate].
  apply scanstring_consumes in Ek.
  pose proof (skip_ws_le s1) as H1.
  destruct (skip_ws s1) as [| c s2]; [discriminate |].
  destruct (c =? ch ":"); [| discriminate].
  pose proof (skip_ws_le s2) as H2.
  destruct (scan (skip_ws s2)) as [value s3 | |] eqn:Ev; try discriminate.
  apply scan_consumes in Ev.
  pose proof (skip_ws_le s3) as H3.
  destruct (skip_ws s3) as [| d s4]; [discriminate |].
  destruct (d =? RBRACE); [inversion H; subst; simpl in *; lia |].
  destruct (d =? ch ","); [| discriminate].
  pose proof (skip_ws_le s4) as H4.
  destruct (skip_ws s4) as [| q s5]; [discriminate |].
  destruct (q =? DQUOTE); [| discriminate].
  apply IH in H. simpl in *. lia.
Qed.

Lemma JSONObject_consumes (n : nat) (s r : text) (v : pyval) :
  JSONObject scan n s = Parsed v r -> (len r <= len s)%nat.
Proof.
  unfold JSONObject. intros H.
  pose proof (skip_ws_le s) as H1.
  destruct (skip_ws s) as [| c s1]; [discriminate |].
  destruct (c =? RBRACE); [inversion H; subst; simpl in *; lia |].
  destruct (c =? DQUOTE); [| discriminate].
  apply object_members_consumes in H. simpl in *. lia.
Qed.

Lemma array_elements_consumes (n : nat) :
  forall s values v r,
    array_elements scan n s values = Parsed v r -> (len r < len s)%nat.
Proof.
  induction n as [| n IH]; intros s values v r H; [discriminate |].
  cbn [array_elements] in H.
  destruct (scan s) as [value s1 | |] eqn:Ev; try discriminate.
  apply scan_consumes in Ev.
  pose proof (skip_ws_le s1) as H1.
  destruct (skip_ws s1) as [| d s2]; [discriminate |].
  destruct (d =? ch "]"); [inversion H; subst; simpl in *; lia |].
  destruct (d =? ch ","); [| discriminate].
  pose proof (skip_ws_le s2) as H2.
  apply IH in H. simpl in *. lia.
Qed.

Lemma JSONArray_consumes (n : nat) (s r : text) (v : pyval) :
  JSONArray scan n s = Parsed v r -> (len r <= len s)%nat.
Proof.
  unfold JSONArray. intros H.
  pose proof (skip_ws_le s) as H1.
  destruct (skip_ws s) as [| c s1] eqn:E; [discriminate |].
  destruct (c =? ch "]"); [inversion H; subst; simpl in *; lia |].
  apply array_elements_consumes in H. lia.
Qed.

(** With [scan] never out of budget on texts of length at most [k], neither
    are the loops on such texts, given one round per character. *)
Variable k : nat.
Hypothesis scan_fuel : forall t, (len t <= k)%nat -> scan t <> Exhausted.

Lemma object_members_fuel (n : nat) :
  forall s pairs,
    (len s <= k)%nat -> (len s < n)%nat ->
    object_members scan n s pairs <> Exhausted.
Proof.
  induction n as [| n IH]; intros s pairs Hk Hn; [lia |].
  cbn [object_members].
  destruct (scanstring s []) as [[key s1] |] eqn:Ek; [| discriminate].
  apply scanstring_consumes in Ek.
  pose proof (skip_ws_le s1) as H1.
  destruct (skip_ws s1) as [| c s2]; [discriminate |].
  destruct (c =? ch ":"); [| discriminate].
  pose proof (skip_ws_le s2) as H2.
  assert (Hs2 : (len (skip_ws s2) <= k)%nat) by (simpl in *; lia).
  pose proof (scan_fuel _ Hs2) as Hne.
  destruct (scan (skip_ws s2)) as [value s3 | |] eqn:Ev;
    [| discriminate | congruence].
  apply scan_consumes in Ev.
  pose proof (skip_ws_le s3) as H3.
  destruct (skip_ws s3) as [| d s4]; [discriminate |].
  destruct (d =? RBRACE); [discriminate |].
  destruct (d =? ch ","); [| discriminate].
  pose proof (skip_ws_le s4) as H4.
  destruct (skip_ws s4) as [| q s5]; [discriminate |].
  destruct (q =? DQUOTE); [| discriminate].
  apply IH; simpl in *; lia.
Qed.

Lemma array_elements_fuel (n : nat) :
  forall s values,
    (len s <= k)%nat -> (len s < n)%nat ->
    array_elements scan n s values <> Exhausted.
Proof.
  induction n as [| n IH]; intros s values Hk Hn; [lia |].
  cbn [array_elements].
  pose proof (scan_fuel _ Hk) as Hne.
  destruct (scan s) as [value s1 | |] eqn:Ev; [| discriminate | congruence].
  apply scan_consumes in Ev.
  pose proof (skip_ws_le s1) as H1.
  destruct (skip_ws s1) as [| d s2]; [discriminate |].
  destruct (d =? ch "]"); [discriminate |].
  destruct (d =? ch ","); [| discriminate].
  pose proof (skip_ws_le s2) as H2.
  apply IH; simpl in *; lia.
Qed.

End ContainersConsume.

Lemma scan_once_consumes (f : nat) :
  forall s v r, scan_once f s = Parsed v r -> (len r < len s)%nat.
Proof.
  induction f as [| f IH]; intros s v r H; [discriminate |].
  cbn [scan_once] in H. destruct s as [| c s]; [discriminate |].
  destruct (c =? DQUOTE).
  { destruct (scanstring s []) as [[w r'] |] eqn:E; [| discriminate].
    apply scanstring_consumes in E. inversion H; subst. simpl. lia. }
  destruct (c =? LBRACE).
  { apply (JSONObject_consumes _ IH) in H. simpl. lia. }
  destruct (c =? ch "[").
  { apply (JSONArray_consumes _ IH) in H. simpl. lia. }
  now apply scan_constant_shorter in H.
Qed.

Lemma scan_constant_fuel (s : text) : scan_constant s <> Exhausted.
Proof.
  unfold scan_constant.
  repeat match goal with
  | |- context [strip_prefix ?w s] => destruct (strip_prefix w s)
  | |- context [match_number s] => destruct (match_number s) as [[? ?] |]
  end; discriminate.
Qed.

(** A budget above the length of the text is never used up. *)
Lemma scan_once_fuel (f : nat) :
  forall s, (len s < f)%nat -> scan_once f s <> Exhausted.
Proof.
  induction f as [| f IH]; intros s Hf; [lia |].
  cbn [scan_once]. destruct s as [| c s]; [discriminate |].
  simpl in Hf.
  destruct (c =? DQUOTE).
  { destruct (scanstring s []) as [[w r'] |]; discriminate. }
  assert (Hk : forall t, (len t <= len s)%nat -> scan_once f t <> Exhausted).
  { intros t Ht. apply IH. lia. }
  destruct (c =? LBRACE).
  { unfold JSONObject. pose proof (skip_ws_le s) as H1.
    destruct (skip_ws s) as [| d s1]; [discriminate |].
    destruct (d =? RBRACE); [discriminate |].
    destruct (d =? DQUOTE); [| discriminate].
    apply (object_members_fuel _ (scan_once_consumes f) (len s) Hk);
      simpl in *; lia. }
  destruct (c =? ch "[").
  { unfold JSONArray. pose proof (skip_ws_le s) as H1.
    destruct (skip_ws s) as [| d s1] eqn:E; [discriminate |].
    destruct (d =? ch "]"); [discriminate |].
    apply (array_elements_fuel _ (scan_once_consumes f) (len s) Hk);
      simpl in *; lia. }
  apply scan_constant_fuel.
Qed.

(** [json.loads] never stops for lack of budget: a [JSONDecodeError] of the
    model is a refusal by the decoder. *)
Lemma decode_fuel (s : text) : decode (S (len s)) s <> Exhausted.
Proof.
  unfold decode. pose proof (skip_ws_le s) as H.
  assert (Hne : scan_once (S (len s)) (skip_ws s) <> Exhausted)
    by (apply scan_once_fuel; lia).
  destruct (scan_once (S (len s)) (skip_ws s)) as [v r | |];
    [| discriminate | congruence].
  destruct (skip_ws r); discriminate.
Qed.

(** A larger budget changes no result. *)
Section ContainersStable.

Variables scan scan' : text -> parse pyval.
Hypothesis scan_stable :
  forall t, scan t <> Exhausted -> scan' t = scan t.

Lemma object_members_stable (n : nat) :
  forall n' s pairs,
    (n <= n')%nat -> object_members scan n s pairs <> Exhausted ->
    object_members scan' n' s pairs = object_members scan n s pairs.
Proof.
  induction n as [| n IH]; intros n' s pairs Hn H; [now destruct H |].
  destruct n' as [| n']; [lia |].
  cbn [object_members] in *.
  destruct (scanstring s []) as [[key s1] |]; [| reflexivity].
  destruct (skip_ws s1) as [| c s2]; [reflexivity |].
  destruct (c =? ch ":"); [| reflexivity].
  assert (E : scan' (skip_ws s2) = scan (skip_ws s2)).
  { apply scan_stable. intros E. now rewrite E in H. }
  rewrite E. destruct (scan (skip_ws s2)) as [value s3 | |]; try reflexivity.
  destruct (skip_ws s3) as [| d s4]; [reflexivity |].
  destruct (d =? RBRACE); [reflexivity |].
  destruct (d =? ch ","); [| reflexivity].
  destruct (skip_ws s4) as [| q s5]; [reflexivity |].
  destruct (q =? DQUOTE); [| reflexivity].
  apply IH; [lia | exact H].
Qed.

Lemma array_elements_stable (n : nat) :
  forall n' s values,
    (n <= n')%nat -> array_elements scan n s values <> Exhausted ->
    array_elements scan' n' s values = array_elements scan n s values.
Proof.
  induction n as [| n IH]; intros n' s values Hn H; [now destruct H |].
  destruct n' as [| n']; [lia |].
  cbn [array_elements] in *.
  assert (E : scan' s = scan s).
  { apply scan_stable. intros E. now rewrite E in H. }
  rewrite E. destruct (scan s) as [value s1 | |]; try reflexivity.
  destruct (skip_ws s1) as [| d s2]; [reflexivity |].
  destruct (d =? ch "]"); [reflexivity |].
  destruct (d =? ch ","); [| reflexivity].
  apply IH; [lia | exact H].
Qed.

End ContainersStable.

Lemma scan_once_stable (f : nat) :
  forall f' s,
    (f <= f')%nat -> scan_once f s <> Exhausted ->
    scan_once f' s = scan_once f s.
Proof.
  induction f as [| f IH]; intros f' s Hf H; [now destruct H |].
  destruct f' as [| f']; [lia |].
  cbn [scan_once] in *. destruct s as [| c s]; [reflexivity |].
  destruct (c =? DQUOTE); [reflexivity |].
  assert (Hs : forall t, scan_once f t <> Exhausted ->
                         scan_once f' t = scan_once f t).
  { intros t Ht. apply IH; [lia | exact Ht]. }
  destruct (c =? LBRACE).
  { unfold JSONObject in *. destruct (skip_ws s) as [| d s1]; [reflexivity |].
    destruct (d =? RBRACE); [reflexivity |].
    destruct (d =? DQUOTE); [| reflexivity].
    apply object_members_stable; [exact Hs | lia | exact H]. }
  destruct (c =? ch "["); [| reflexivity].
  unfold JSONArray in *. destruct (skip_ws s) as [| d s1]; [reflexivity |].
  destruct (d =? ch "]"); [reflexivity |].
  apply array_elements_stable; [exact Hs | lia | exact H].
Qed.

(** Any budget above the length of the text gives the result [loads]
    computes. *)
Lemma decode_stable (f : nat) (s : text) :
  (len s < f)%nat -> decode f s = decode (S (len s)) s.
Proof.
  intros Hf. unfold decode.
  rewrite (scan_once_stable (S (len s)) f); [reflexivity | lia |].
  apply scan_once_fuel. pose proof (skip_ws_le s). lia.
Qed.

End JsonFacts.

(** * Properties of the pattern matcher *)

Module RegexFacts.
Import Regex.

Lemma is_brace_false (c : char) :
  is_brace c = false <-> c <> LBRACE /\ c <> RBRACE.
Proof.
  unfold is_brace. rewrite orb_false_iff, !N.eqb_neq. tauto.
Qed.

Lemma not_in_braces (c : char) :
  ~ In c [LBRACE; RBRACE] <-> is_brace c = false.
Proof.
  rewrite is_brace_false. simpl. intuition congruence.
Qed.

(** *** Building matches *)

Lemma plain_cons (c : char) (w : text) :
  is_brace c = false -> matches expr plain w -> matches expr plain (c :: w).
Proof.
  intros Hc Hw. change (c :: w) with ([c] ++ w).
  apply m_star_step; [apply m_noneof, not_in_braces, Hc | exact Hw].
Qed.

Lemma body_cons (c : char) (b : text) :
  is_brace c = false -> matches expr body b -> matches expr body (c :: b).
Proof.
  intros Hc Hb. change (c :: b) with ([c] ++ b).
  apply m_star_step; [| exact Hb].
  apply m_alt_l. apply (plain_cons c []); [exact Hc | apply m_star_nil].
Qed.

Lemma body_span_app (w b : text) :
  span w -> matches expr body b -> matches expr body (w ++ b).
Proof.
  intros Hw Hb. apply m_star_step; [| exact Hb].
  apply m_alt_r, m_recurse, Hw.
Qed.

Lemma span_intro (b : text) :
  matches expr body b -> span (LBRACE :: b ++ [RBRACE]).
Proof.
  intros Hb. change (LBRACE :: b ++ [RBRACE]) with ([LBRACE] ++ b ++ [RBRACE]).
  apply m_cat; [apply m_lit |]. apply m_cat; [exact Hb | apply m_lit].
Qed.

(** *** Soundness of [close]: what it consumes is made of bodies *)

Lemma closes_cons (d : nat) (c : char) (m : text) :
  is_brace c = false -> closes d m -> closes d (c :: m).
Proof.
  intros Hc H. destruct H as [b Hb | d b m Hb Hm].
  - apply (closes_O (c :: b)), body_cons; assumption.
  - apply (closes_S d (c :: b) m); [apply body_cons |]; assumption.
Qed.

Lemma closes_open (d : nat) (m : text) :
  closes (S d) m -> closes d (LBRACE :: m).
Proof.
  intros H. inversion H as [| d' b m' Hb Hm]; subst.
  pose proof (span_intro b Hb) as Hs.
  assert (E : forall t, LBRACE :: b ++ RBRACE :: t
                        = (LBRACE :: b ++ [RBRACE]) ++ t).
  { intros t. simpl. now rewrite <- app_assoc. }
  destruct Hm as [b2 Hb2 | d2 b2 m2 Hb2 Hm2].
  - rewrite E, app_assoc. apply closes_O, body_span_app; assumption.
  - rewrite E, app_assoc. apply closes_S; [apply body_span_app |]; assumption.
Qed.

Lemma close_split (s : text) :
  forall d m r, close d s = Some (m, r) -> s = m ++ r.
Proof.
  induction s as [| c s IH]; intros d m r H; simpl in H; [discriminate |].
  destruct (c =? RBRACE).
  - destruct d as [| d].
    + now inversion H.
    + destruct (close d s) as [[m' r'] |] eqn:E; inversion H; subst.
      simpl. f_equal. eapply IH, E.
  - destruct (c =? LBRACE).
    + destruct (close (S d) s) as [[m' r'] |] eqn:E; inversion H; subst.
      simpl. f_equal. eapply IH, E.
    + destruct (close d s) as [[m' r'] |] eqn:E; inversion H; subst.
      simpl. f_equal. eapply IH, E.
Qed.

Lemma close_sound (s : text) :
  forall d m r, close d s = Some (m, r) -> closes d m.
Proof.
  induction s as [| c s IH]; intros d m r H; simpl in H; [discriminate |].
  destruct (N.eqb_spec c RBRACE) as [-> | Hr].
  - destruct d as [| d].
    + inversion H; subst. apply (closes_O []), m_star_nil.
    + destruct (close d s) as [[m' r'] |] eqn:E; inversion H; subst.
      apply (closes_S d [] m'); [apply m_star_nil | eapply IH, E].
  - destruct (N.eqb_spec c LBRACE) as [-> | Hl].
    + destruct (close (S d) s) as [[m' r'] |] eqn:E; inversion H; subst.
      apply closes_open. eapply IH, E.
    + destruct (close d s) as [[m' r'] |] eqn:E; inversion H; subst.
      apply closes_cons; [now apply is_brace_false | eapply IH, E].
Qed.

Lemma match_at_sound (s m r : text) :
  match_at s = Some (m, r) -> s = m ++ r /\ span m.
Proof.
  destruct s as [| c s]; simpl; [discriminate |].
  destruct (N.eqb_spec c LBRACE) as [-> | Hl]; [| discriminate].
  destruct (close 0 s) as [[m' r'] |] eqn:E; intros H; inversion H; subst.
  split.
  - simpl. f_equal. eapply close_split, E.
  - apply close_sound in E. inversion E; subst. now apply span_intro.
Qed.

(** *** Completeness of [close]: a match is passed over as a whole *)

Lemma neutral_nil : neutral [].
Proof.
  intros d r. simpl. now destruct (close d r) as [[m r'] |].
Qed.

Lemma neutral_app (u v : text) : neutral u -> neutral v -> neutral (u ++ v).
Proof.
  intros Hu Hv d r. rewrite <- app_assoc, Hu, Hv.
  destruct (close d r) as [[m r'] |]; simpl; [| reflexivity].
  unfold prepend. simpl. now rewrite app_assoc.
Qed.

Lemma neutral_char (c : char) : is_brace c = false -> neutral [c].
Proof.
  intros Hc d r. apply is_brace_false in Hc. destruct Hc as [Hl Hr].
  simpl. apply N.eqb_neq in Hl, Hr. rewrite Hl, Hr.
  now destruct (close d r) as [[m r'] |].
Qed.

Lemma neutral_braced (b : text) :
  neutral b -> neutral (LBRACE :: b ++ [RBRACE]).
Proof.
  intros Hb d r. simpl. rewrite <- app_assoc, Hb. simpl.
  destruct (close d r) as [[m r'] |]; simpl; [| reflexivity].
  unfold prepend, cons_fst. simpl. now rewrite <- app_assoc.
Qed.

Ltac shape_cases :=
  unfold shape, plain, body, expr in *;
  repeat split; intros E; try discriminate E.

Ltac use_shape :=
  repeat match goal with H : _ /\ _ |- _ => destruct H end;
  auto.

Lemma matches_shape (r : re) (w : text) : matches expr r w -> shape r w.
Proof.
  induction 1 as [c | cs c Hc | a b w H IH | a b w H IH
                  | a b u v Hu IHu Hv IHv | a | a u v Hu IHu Hv IHv | w H IH].
  - shape_cases; now inversion E.
  - shape_cases. inversion E; subst. now apply neutral_char, not_in_braces.
  - shape_cases. inversion E; subst. use_shape.
  - shape_cases. inversion E; subst. use_shape.
  - shape_cases; inversion E; subst.
    + exists u. split; [f_equal |]; use_shape.
    + assert (Hl : u = [LBRACE]) by use_shape.
      assert (Ht : exists b, v = b ++ [RBRACE] /\ neutral b) by use_shape.
      destruct Ht as (b0 & -> & Hb0). subst u. now exists b0.
  - shape_cases; apply neutral_nil.
  - shape_cases; inversion E; subst; apply neutral_app; use_shape.
  - shape_cases.
    assert (He : exists b, w = LBRACE :: b ++ [RBRACE] /\ neutral b)
      by use_shape.
    destruct He as (b0 & -> & Hb0). now apply neutral_braced.
Qed.

Lemma span_shape (m : text) :
  span m -> exists b, m = LBRACE :: b ++ [RBRACE] /\ neutral b.
Proof.
  intros H. apply matches_shape in H.
  destruct H as (_ & _ & _ & _ & _ & _ & _ & _ & He). now apply He.
Qed.

Lemma match_at_complete (m r : text) :
  span m -> match_at (m ++ r) = Some (m, r).
Proof.
  intros H. destruct (span_shape m H) as (b & -> & Hb).
  simpl. rewrite <- app_assoc, Hb. reflexivity.
Qed.

(** [match_at] returns exactly the match of the pattern at the head of the
    text. *)
Lemma match_at_spec (s m r : text) :
  match_at s = Some (m, r) <-> s = m ++ r /\ span m.
Proof.
  split; [apply match_at_sound |].
  intros [-> H]. now apply match_at_complete.
Qed.

(** No match of the pattern is a proper prefix of another: the first match
    tried by a backtracking engine is the only one. *)
Lemma span_prefix_free (m1 m2 r1 r2 : text) :
  span m1 -> span m2 -> m1 ++ r1 = m2 ++ r2 -> m1 = m2 /\ r1 = r2.
Proof.
  intros H1 H2 E.
  pose proof (match_at_complete m1 r1 H1) as E1.
  pose proof (match_at_complete m2 r2 H2) as E2.
  rewrite E in E1. rewrite E1 in E2. now inversion E2.
Qed.

End RegexFacts.

(** * Properties of [findall] *)

Module FindallFacts.
Import Regex RegexFacts.

Lemma findall_from_skip (a r : text) :
  findall_from (List.length a) (a ++ r) = findall_from 0 r.
Proof.
  induction a as [| c a IH]; simpl; [reflexivity | exact IH].
Qed.

Lemma span_nonempty (m : text) :
  span m -> exists m', m = LBRACE :: m'.
Proof.
  intros H. destruct (span_shape m H) as (b & -> & _). now eexists.
Qed.

(** After a match the scan resumes where the match ended. *)
Lemma findall_match (s m r : text) :
  match_at s = Some (m, r) -> findall s = m :: findall r.
Proof.
  intros H. pose proof (match_at_sound s m r H) as [-> Hm].
  destruct (span_nonempty m Hm) as (m' & ->).
  unfold findall. simpl app. cbn [findall_from].
  change (LBRACE :: m' ++ r) with ((LBRACE :: m') ++ r). rewrite H.
  f_equal.
  replace (List.length (LBRACE :: m') - 1)%nat with (List.length m')
    by (simpl; lia).
  apply findall_from_skip.
Qed.

(** Where no match starts the scan moves on by one character. *)
Lemma findall_step (c : char) (s : text) :
  match_at (c :: s) = None -> findall (c :: s) = findall s.
Proof.
  intros H. unfold findall. cbn [findall_from]. now rewrite H.
Qed.

Lemma findall_search (s : text) :
  findall s = match search s with
              | Some (_, m, r) => m :: findall r
              | None => []
              end.
Proof.
  induction s as [| c s IH].
  - reflexivity.
  - cbn [search]. destruct (match_at (c :: s)) as [[m r] |] eqn:E.
    + now apply findall_match.
    + rewrite (findall_step c s E), IH.
      now destruct (search s) as [[[pre m] r] |].
Qed.

Lemma match_at_not_brace (c : char) (s : text) :
  c <> LBRACE -> match_at (c :: s) = None.
Proof.
  intros H. simpl. apply N.eqb_neq in H. now rewrite H.
Qed.

Lemma count_occ_cons_0 (c : char) (s : text) :
  count_occ N.eq_dec (c :: s) LBRACE = 0%nat ->
  c <> LBRACE /\ count_occ N.eq_dec s LBRACE = 0%nat.
Proof.
  simpl. destruct (N.eq_dec c LBRACE); [discriminate | auto].
Qed.

Lemma search_unfold (s : text) :
  search s = match match_at s with
             | Some (m, r) => Some ([], m, r)
             | None =>
                 match s with
                 | [] => None
                 | c :: s' =>
                     match search s' with
                     | Some (pre, m, r) => Some (c :: pre, m, r)
                     | None => None
                     end
                 end
             end.
Proof. now destruct s. Qed.

(** What precedes the match adds up with it to the text, the match is a
    match of the pattern, and no match starts earlier. *)
Lemma search_spec (s pre m r : text) :
  search s = Some (pre, m, r) ->
  s = pre ++ m ++ r /\ span m /\
  forall p1 c p2, pre = p1 ++ c :: p2 -> match_at (c :: p2 ++ m ++ r) = None.
Proof.
  revert pre. induction s as [| c s IH]; intros pre H.
  - discriminate.
  - cbn [search] in H. destruct (match_at (c :: s)) as [[m0 r0] |] eqn:E.
    + inversion H; subst. apply match_at_sound in E. destruct E as [-> Hm].
      repeat split; [assumption |].
      intros p1 c0 p2 Hp. now destruct p1.
    + destruct (search s) as [[[pre' m'] r'] |] eqn:Es; [| discriminate].
      inversion H; subst. destruct (IH pre' eq_refl) as (-> & Hm & Hleft).
      repeat split; [assumption |].
      intros p1 c0 p2 Hp. destruct p1 as [| c1 p1]; simpl in Hp.
      * inversion Hp; subst. exact E.
      * inversion Hp; subst. eapply Hleft. reflexivity.
Qed.

(** A match preceded by no match is the one the search finds. *)
Lemma search_leftmost (pre m r : text) :
  span m ->
  (forall p1 c p2, pre = p1 ++ c :: p2 ->
                   match_at (c :: p2 ++ m ++ r) = None) ->
  search (pre ++ m ++ r) = Some (pre, m, r).
Proof.
  intros Hm. induction pre as [| c pre IH]; intros Hleft.
  - simpl app. rewrite search_unfold.
    now rewrite (match_at_complete m r Hm).
  - simpl app. cbn [search]. rewrite (Hleft [] c pre eq_refl).
    rewrite IH; [reflexivity |].
    intros p1 c0 p2 ->. apply (Hleft (c :: p1) c0 p2). reflexivity.
Qed.

Lemma search_none (s : text) :
  count_occ N.eq_dec s LBRACE = 0%nat -> search s = None.
Proof.
  induction s as [| c s IH]; intros H.
  - reflexivity.
  - apply count_occ_cons_0 in H. destruct H as [Hc Hs].
    cbn [search]. rewrite (match_at_not_brace c s Hc). now rewrite IH.
Qed.

Lemma search_after_prose (pre m r : text) :
  count_occ N.eq_dec pre LBRACE = 0%nat -> span m ->
  search (pre ++ m ++ r) = Some (pre, m, r).
Proof.
  intros Hpre Hm. apply search_leftmost; [assumption |].
  intros p1 c p2 ->. apply match_at_not_brace. intros ->.
  rewrite count_occ_app in Hpre. simpl in Hpre.
  destruct (N.eq_dec LBRACE LBRACE); [lia | congruence].
Qed.

(** Relabelling the characters that are not braces relabels the matches and
    moves none of them. *)
Section Relabel.

Variable f : char -> char.
Hypothesis f_brace : forall c, is_brace c = true -> f c = c.
Hypothesis f_other : forall c, is_brace c = false -> is_brace (f c) = false.






End Relabel.

End FindallFacts.

(** * Extraction: which span is parsed *)

Module ExtractionFacts.
Import Regex RegexFacts FindallFacts.

Lemma is_span_spec (m : text) : is_span m = true <-> span m.
Proof.
  unfold is_span. split.
  - destruct (match_at m) as [[m' r] |] eqn:E; [| discriminate].
    destruct r; [| discriminate]. intros _.
    apply match_at_sound in E. destruct E as [-> H]. now rewrite app_nil_r.
  - intros H. pose proof (match_at_complete m [] H) as E.
    rewrite app_nil_r in E. now rewrite E.
Qed.

Lemma search_first_span (pre m post : text) :
  first_span pre m post -> search (pre ++ m ++ post) = Some (pre, m, post).
Proof.
  intros [Hm Hleft]. apply search_leftmost; [assumption |].
  intros p1 c p2 Hp.
  destruct (match_at (c :: p2 ++ m ++ post)) as [[w r] |] eqn:E;
    [| reflexivity].
  apply match_at_sound in E. destruct E as [E Hw].
  now destruct (Hleft p1 c p2 w r Hp E).
Qed.

Lemma first_span_search (s pre m post : text) :
  search s = Some (pre, m, post) ->
  s = pre ++ m ++ post /\ first_span pre m post.
Proof.
  intros H. apply search_spec in H. destruct H as (-> & Hm & Hleft).
  split; [reflexivity |]. split; [assumption |].
  intros p1 c p2 w r Hp E Hw.
  pose proof (match_at_complete w r Hw) as Ew. rewrite <- E in Ew.
  rewrite (Hleft p1 c p2 Hp) in Ew. discriminate.
Qed.

Lemma search_no_span (s : text) : no_span s -> search s = None.
Proof.
  intros H. destruct (search s) as [[[pre m] post] |] eqn:E; [| reflexivity].
  apply search_spec in E. destruct E as (-> & Hm & _).
  now destruct (H pre m post eq_refl).
Qed.

Lemma first_span_after_prose (pre m post : text) :
  count_occ N.eq_dec pre LBRACE = 0%nat -> span m -> first_span pre m post.
Proof.
  intros Hpre Hm.
  pose proof (search_after_prose pre m post Hpre Hm) as E.
  now apply first_span_search in E.
Qed.

(** [json_from_str] parses the leftmost match and nothing else. *)
Lemma json_from_str_search (s : text) :
  json_from_str s = match search s with
                    | Some (_, m, _) => Json.loads m
                    | None => Ok PyNone
                    end.
Proof.
  unfold json_from_str. rewrite findall_search.
  now destruct (search s) as [[[pre m] post] |].
Qed.

Lemma text_eqb_spec (a b : text) : text_eqb a b = true <-> a = b.
Proof.
  revert b. induction a as [| x a IH]; intros [| y b]; simpl;
    try (split; [discriminate | discriminate]); [tauto |].
  rewrite andb_true_iff, N.eqb_eq, IH. split.
  - now intros [-> ->].
  - intros E. now inversion E.
Qed.



End ExtractionFacts.

(** * Response extraction

    In the comments below JSON samples are written as in [jtxt], with an
    apostrophe for the double quote. *)

Module Extraction.
Import Regex RegexFacts FindallFacts ExtractionFacts.

(** C1, as stated, fails.  In [{oops} {'lung_opacity': true}] the first
    balanced span does not parse; scanning on from the character after its
    opening brace would reach an object that parses, but [json_from_str]
    raises.  In [{oops}] no candidate parses, and the result is the
    exception, not [None]. *)
Lemma unparseable_span_counterexample :
  search (jtxt "{oops} {'lung_opacity': true}")
    = Some ([], jtxt "{oops}", jtxt " {'lung_opacity': true}") /\
  Json.loads (jtxt "{oops}") = Raise JSONDecodeError /\
  json_from_str (jtxt "oops} {'lung_opacity': true}")
    = Ok (PyDict [(txt "lung_opacity", PyBool true)]) /\
  json_from_str (jtxt "{oops} {'lung_opacity': true}")
    = Raise JSONDecodeError /\
  findall (jtxt "{oops}") = [jtxt "{oops}"] /\
  json_from_str (jtxt "{oops}") = Raise JSONDecodeError.
Proof. repeat split; vm_compute; reflexivity. Qed.

(** C1, amended: only the first balanced-brace span of the text is parsed.
    When it does not parse as JSON, [json_from_str] raises
    [JSONDecodeError] and tries no later span; when the text has no
    balanced-brace span at all, it returns [None] and does not raise. *)
Theorem first_span_decides_failure (s : text) :
  (no_span s -> json_from_str s = Ok PyNone) /\
  (forall pre m post,
      s = pre ++ m ++ post -> first_span pre m post ->
      Json.loads m = Raise JSONDecodeError ->
      json_from_str s = Raise JSONDecodeError).
Proof.
  split.
  - intros H. now rewrite json_from_str_search, (search_no_span s H).
  - intros pre m post -> Hfirst Hloads.
    now rewrite json_from_str_search, (search_first_span pre m post Hfirst).
Qed.


(** C4, as stated, fails.  In [{'a': 1,} {'a': 1}] the first candidate has a
    trailing comma and does not parse, the second one parses; the first
    successfully parsed candidate is the second span, but [json_from_str]
    raises. *)
Lemma first_parsed_candidate_counterexample :
  findall (jtxt "{'a': 1,} {'a': 1}") = [jtxt "{'a': 1,}"; jtxt "{'a': 1}"] /\
  Json.loads (jtxt "{'a': 1,}") = Raise JSONDecodeError /\
  Json.loads (jtxt "{'a': 1}") = Ok (PyDict [(txt "a", PyInt 1)]) /\
  json_from_str (jtxt "{'a': 1,} {'a': 1}") = Raise JSONDecodeError.
Proof. repeat split; vm_compute; reflexivity. Qed.

(** C4, amended: when the first balanced-brace span of the left-to-right
    scan parses, extraction returns its value, whatever follows it (not the
    largest span, not the last); in particular, of two sequential valid
    JSON objects only the first is returned. *)
Theorem first_span_is_returned (pre m post : text) (v : pyval) :
  first_span pre m post ->
  Json.loads m = Ok v ->
  json_from_str (pre ++ m ++ post) = Ok v.
Proof.
  intros Hfirst Hloads.
  now rewrite json_from_str_search, (search_first_span pre m post Hfirst).
Qed.

Lemma first_span_is_returned_witness :
  first_span (txt "Sure! ") (jtxt "{'a': false}")
    (jtxt " {'a': true, 'b': [{}]}") /\
  Json.loads (jtxt "{'a': false}") = Ok (PyDict [(txt "a", PyBool false)]) /\
  json_from_str (txt "Sure! " ++ jtxt "{'a': false}"
                 ++ jtxt " {'a': true, 'b': [{}]}")
    = Ok (PyDict [(txt "a", PyBool false)]).
Proof.
  assert (H : first_span (txt "Sure! ") (jtxt "{'a': false}")
                (jtxt " {'a': true, 'b': [{}]}")).
  { apply first_span_after_prose; [reflexivity |].
    apply is_span_spec. vm_compute. reflexivity. }
  split; [exact H |]. split; [vm_compute; reflexivity |].
  apply (first_span_is_returned (txt "Sure! ") (jtxt "{'a': false}")
           (jtxt " {'a': true, 'b': [{}]}")).
  - exact H.
  - vm_compute. reflexivity.
Defined.

(** C5, as stated, fails.  The prose [Findings {as requested}: ] has only
    balanced braces and the object [{'a': 1}] is valid, but the span found
    first is [{as requested}] and [json_from_str] raises. *)
Lemma round_trip_counterexample :
  braces_balanced (jtxt "Findings {as requested}: ") = true /\
  braces_balanced (jtxt " Hope this helps!") = true /\
  Json.loads (jtxt "{'a': 1}") = Ok (PyDict [(txt "a", PyInt 1)]) /\
  is_span (jtxt "{'a': 1}") = true /\
  json_from_str (jtxt "Findings {as requested}: " ++ jtxt "{'a': 1}"
                 ++ jtxt " Hope this helps!")
    = Raise JSONDecodeError.
Proof. repeat split; vm_compute; reflexivity. Qed.

(** C5, amended: for every JSON object text [o] that parses and is one
    balanced-brace span when the braces inside its strings are counted too,
    and for every prose that has no opening brace before [o] (what follows
    [o] is arbitrary), extraction from the prose with [o] embedded returns
    the value of [o]. *)
Theorem round_trip_through_prose (pre o post : text) (v : pyval) :
  count_occ N.eq_dec pre LBRACE = 0%nat ->
  span o ->
  Json.loads o = Ok v ->
  json_from_str (pre ++ o ++ post) = Ok v.
Proof.
  intros Hpre Ho Hloads.
  now rewrite json_from_str_search, (search_after_prose pre o post Hpre Ho).
Qed.

Lemma round_trip_through_prose_witness :
  count_occ N.eq_dec (jtxt "Sure! ") LBRACE = 0%nat /\
  span (jtxt "{'cardiomegaly': false, 'note': 'see {fig}'}") /\
  Json.loads (jtxt "{'cardiomegaly': false, 'note': 'see {fig}'}")
    = Ok (PyDict [(txt "cardiomegaly", PyBool false);
                  (txt "note", PyStr (txt "see {fig}"))]) /\
  json_from_str
    (jtxt "Sure! " ++ jtxt "{'cardiomegaly': false, 'note': 'see {fig}'}"
     ++ jtxt " I hope this helps {really}.")
    = Ok (PyDict [(txt "cardiomegaly", PyBool false);
                  (txt "note", PyStr (txt "see {fig}"))]).
Proof.
  assert (H : span (jtxt "{'cardiomegaly': false, 'note': 'see {fig}'}")).
  { apply is_span_spec. vm_compute. reflexivity. }
  split; [reflexivity |]. split; [exact H |].
  split; [vm_compute; reflexivity |].
  apply round_trip_through_prose.
  - reflexivity.
  - exact H.
  - vm_compute. reflexivity.
Defined.

(** C6: a text without any opening brace, the empty text included, yields
    [None]; nothing is raised. *)
Theorem no_brace_no_object (s : text) :
  count_occ N.eq_dec s LBRACE = 0%nat -> json_from_str s = Ok PyNone.
Proof.
  intros H. now rewrite json_from_str_search, (search_none s H).
Qed.

Lemma no_brace_no_object_witness :
  count_occ N.eq_dec (txt "No acute cardiopulmonary abnormality.") LBRACE
    = 0%nat /\
  json_from_str (txt "No acute cardiopulmonary abnormality.") = Ok PyNone.
Proof.
  split; [reflexivity |]. apply no_brace_no_object. reflexivity.
Defined.

Example empty_input_no_object : json_from_str [] = Ok PyNone.
Proof. reflexivity. Qed.

End Extraction.

(** * Prompt construction and result storage *)

Module NotebookFacts.
Import Notebook ExtractionFacts.

Lemma substring_app_l (needle p s : text) :
  substring needle s -> substring needle (p ++ s).
Proof.
  intros (pre & post & ->). exists (p ++ pre), post. now rewrite app_assoc.
Qed.

Lemma substring_app_r (needle s q : text) :
  substring needle s -> substring needle (s ++ q).
Proof.
  intros (pre & post & ->). exists pre, (post ++ q).
  now rewrite <- !app_assoc.
Qed.

(** The user prompt holds the fenced report and the fenced schema. *)
Lemma prompt_fstring_report (r s a : text) :
  substring (FENCE ++ r ++ FENCE) (prompt_fstring r s a).
Proof.
  exists [NL]. eexists. unfold prompt_fstring.
  rewrite <- !app_assoc. reflexivity.
Qed.

Lemma prompt_fstring_schema (r s a : text) :
  substring (FENCE ++ s ++ FENCE) (prompt_fstring r s a).
Proof.
  exists ([NL] ++ FENCE ++ r ++ FENCE ++ [NL] ++ REQUEST ++ [NL]).
  eexists. unfold prompt_fstring.
  rewrite <- !app_assoc. reflexivity.
Qed.

(** Both templates hold the user prompt. *)
Lemma llama2_fstring_prompt (needle sys p : text) :
  substring needle p -> substring needle (llama2_fstring sys p).
Proof.
  intros H. unfold llama2_fstring. do 6 apply substring_app_l.
  now apply substring_app_r.
Qed.

Lemma mistral_fstring_prompt (needle sys p : text) :
  substring needle p -> substring needle (mistral_fstring sys p).
Proof.
  intros H. unfold mistral_fstring. do 3 apply substring_app_l.
  now apply substring_app_r.
Qed.

Ltac run_cells :=
  cbn [run bind select_model system_prompt construct_schema sample_report
       construct_user_prompt prompt_templates select_template
       generate_response complete
       model model_name model_basename system schema report_text
       additional_instructions prompt llama2_prompt_template
       mistral_prompt_template full_prompt res_txt id labels result_dict].

Lemma text_eqb_refl (a : text) : text_eqb a a = true.
Proof. now apply text_eqb_spec. Qed.

Lemma mistral_is_not_llama2 : text_eqb (txt "mistral") (txt "llama-2") = false.
Proof. vm_compute. reflexivity. Qed.

End NotebookFacts.

Module Prompting.
Import Notebook ExtractionFacts NotebookFacts.

(** C2, as stated, fails.  With the model family [falcon], which has no
    template, the selection raises nothing: it assigns the Mistral template
    to [full_prompt], which was empty before. *)
Lemma unknown_family_counterexample :
  let cells := [select_model (txt "falcon"); system_prompt system_form;
                construct_schema schema_literal; sample_report report_form;
                construct_user_prompt instructions_form; prompt_templates] in
  let g := after cells fresh in
  let g' := after [select_template] g in
  run cells fresh = Ok g /\
  model g = txt "falcon" /\
  select_template g = Ok g' /\
  full_prompt g = [] /\
  full_prompt g' = mistral_prompt_template g /\
  full_prompt g' <> full_prompt g.
Proof.
  intros cells g g'.
  split; [vm_compute; reflexivity |].
  split; [vm_compute; reflexivity |].
  split; [vm_compute; reflexivity |].
  split; [vm_compute; reflexivity |].
  split; [vm_compute; reflexivity |].
  vm_compute. discriminate.
Qed.

(** C2, amended: applying the chat template never fails and has no notion
    of an unsupported family.  The family [llama-2] selects the Llama-2
    template; every other family value, with or without a template of its
    own, selects the Mistral template.  The selected template is assigned to
    [full_prompt] and no other variable changes. *)
Theorem template_selection_total (g : globals) :
  exists g',
    select_template g = Ok g' /\
    (model g = txt "llama-2" -> full_prompt g' = llama2_prompt_template g) /\
    (model g <> txt "llama-2" -> full_prompt g' = mistral_prompt_template g) /\
    model g' = model g /\ model_name g' = model_name g /\
    model_basename g' = model_basename g /\ system g' = system g /\
    schema g' = schema g /\ report_text g' = report_text g /\
    additional_instructions g' = additional_instructions g /\
    prompt g' = prompt g /\
    llama2_prompt_template g' = llama2_prompt_template g /\
    mistral_prompt_template g' = mistral_prompt_template g /\
    res_txt g' = res_txt g /\ id g' = id g /\ labels g' = labels g /\
    result_dict g' = result_dict g.
Proof.
  eexists. split; [reflexivity |]. run_cells.
  destruct (text_eqb (model g) (txt "llama-2")) eqn:E.
  - apply text_eqb_spec in E. repeat split; congruence.
  - assert (model g <> txt "llama-2").
    { intros H. apply text_eqb_spec in H. congruence. }
    repeat split; congruence.
Qed.

(** C7: the user prompt is a function of the report text, the schema text
    and the additional instructions alone: two runs of the cell that agree
    on these three produce the same prompt, whatever else the globals
    hold. *)
Theorem prompt_is_deterministic (a1 a2 : text) (g1 g2 : globals) :
  report_text g1 = report_text g2 ->
  schema g1 = schema g2 ->
  a1 = a2 ->
  exists g1' g2',
    construct_user_prompt a1 g1 = Ok g1' /\
    construct_user_prompt a2 g2 = Ok g2' /\
    prompt g1' = prompt g2'.
Proof.
  intros Hr Hs ->. eexists. eexists.
  split; [reflexivity |]. split; [reflexivity |].
  run_cells. now rewrite Hr, Hs.
Qed.

Lemma prompt_is_deterministic_witness :
  let g1 := after [select_model (txt "llama-2"); system_prompt system_form;
                   construct_schema schema_literal;
                   sample_report report_form] fresh in
  let g2 := after [select_model (txt "mistral"); system_prompt [];
                   construct_schema schema_literal;
                   sample_report report_form;
                   construct_user_prompt (txt "stale"); prompt_templates]
              fresh in
  report_text g1 = report_text g2 /\
  schema g1 = schema g2 /\
  g1 <> g2 /\
  exists g1' g2',
    construct_user_prompt instructions_form g1 = Ok g1' /\
    construct_user_prompt instructions_form g2 = Ok g2' /\
    prompt g1' = prompt g2'.
Proof.
  intros g1 g2.
  split; [vm_compute; reflexivity |]. split; [vm_compute; reflexivity |].
  split; [vm_compute; discriminate |].
  apply (prompt_is_deterministic instructions_form instructions_form g1 g2);
    vm_compute; reflexivity.
Defined.

(** C8, as stated, fails.  A schema literal with an empty finding name and
    with the name [edema] twice is assigned to [schema] like any other
    text; nothing is raised. *)
Lemma malformed_schema_counterexample :
  let literal :=
    jtxt "{'': {'type': 'boolean'}, 'edema': {'type': 'boolean'}, 'edema': {'type': 'boolean'}}" in
  exists g,
    construct_schema literal fresh = Ok g /\
    schema g = literal /\
    schema_keys literal = [txt ""; txt "edema"].
Proof.
  intros literal. exists (after [construct_schema literal] fresh).
  split; [vm_compute; reflexivity |]. split; vm_compute; reflexivity.
Qed.

(** C8, amended: schema construction has no error condition at all.  The
    schema is a text; whatever it holds, duplicate or empty finding names
    included, it is assigned unchanged and reaches the user prompt verbatim
    between fences. *)
Theorem schema_is_not_validated (literal : text) (g : globals) :
  exists g',
    construct_schema literal g = Ok g' /\
    schema g' = literal /\
    forall a, exists g'',
      construct_user_prompt a g' = Ok g'' /\
      substring (FENCE ++ literal ++ FENCE) (prompt g'').
Proof.
  eexists. split; [reflexivity |]. split; [reflexivity |].
  intros a. eexists. split; [reflexivity |].
  run_cells. apply prompt_fstring_schema.
Qed.

(** C10: for the two supported model families, whatever the report, the
    system instruction, the schema and the additional instructions, the
    composed prompt holds the report text verbatim, as one contiguous piece
    between two triple-backtick fences. *)
Theorem report_verbatim_in_full_prompt
  (family sys literal report instructions : text) (g0 : globals) :
  family = txt "llama-2" \/ family = txt "mistral" ->
  exists g,
    run [select_model family; system_prompt sys; construct_schema literal;
         sample_report report; construct_user_prompt instructions;
         prompt_templates; select_template] g0 = Ok g /\
    substring (FENCE ++ report ++ FENCE) (full_prompt g).
Proof.
  intros [-> | ->]; run_cells; eexists; (split; [reflexivity |]); run_cells.
  - rewrite text_eqb_refl.
    apply llama2_fstring_prompt, prompt_fstring_report.
  - rewrite mistral_is_not_llama2.
    apply mistral_fstring_prompt, prompt_fstring_report.
Qed.

Lemma report_verbatim_in_full_prompt_witness :
  (txt "mistral" = txt "llama-2" \/ txt "mistral" = txt "mistral") /\
  exists g,
    run [select_model (txt "mistral"); system_prompt system_form;
         construct_schema schema_literal; sample_report report_form;
         construct_user_prompt instructions_form;
         prompt_templates; select_template] fresh = Ok g /\
    substring (FENCE ++ report_form ++ FENCE) (full_prompt g).
Proof.
  split; [right; reflexivity |].
  apply (report_verbatim_in_full_prompt (txt "mistral")).
  right. reflexivity.
Defined.

(** C9: the labels stored for the report are exactly what [json_from_str]
    returned; the schema plays no part.  A key of the returned object that
    the schema does not declare is found in the stored record with the value
    the model gave it. *)
Theorem labels_are_not_filtered (g : globals) (items : list (text * pyval)) :
  json_from_str (res_txt g) = Ok (PyDict items) ->
  exists g',
    assign_labels g = Ok g' /\
    result_dict g' = [(1%Z, PyDict items)] /\
    forall k v,
      ~ In k (schema_keys (schema g)) ->
      dict_get k items = Some v ->
      exists record,
        lookup 1%Z (result_dict g') = Some (PyDict record) /\
        dict_get k record = Some v.
Proof.
  intros H. unfold assign_labels. rewrite H. cbn [bind].
  eexists. split; [reflexivity |]. split; [reflexivity |].
  intros k v _ Hk. now exists items.
Qed.

Lemma labels_are_not_filtered_witness :
  let g := after [select_model (txt "llama-2"); system_prompt system_form;
                  construct_schema schema_literal; sample_report report_form;
                  construct_user_prompt instructions_form; prompt_templates;
                  generate_response (fun _ => recorded_response)] fresh in
  let items := [(txt "cardiomegaly", PyBool false);
                (txt "lung_opacity", PyBool true);
                (txt "pneumothorax", PyBool false);
                (txt "pleural_effusion", PyBool false);
                (txt "pulmonary_rama", PyBool false);
                (txt "abnormal_study", PyBool true)] in
  json_from_str (res_txt g) = Ok (PyDict items) /\
  ~ In (txt "pulmonary_rama") (schema_keys (schema g)) /\
  exists g',
    assign_labels g = Ok g' /\
    result_dict g' = [(1%Z, PyDict items)] /\
    forall k v,
      ~ In k (schema_keys (schema g)) ->
      dict_get k items = Some v ->
      exists record,
        lookup 1%Z (result_dict g') = Some (PyDict record) /\
        dict_get k record = Some v.
Proof.
  intros g items.
  split; [vm_compute; reflexivity |].
  split; [vm_compute; intuition discriminate |].
  apply (labels_are_not_filtered g items). vm_compute. reflexivity.
Defined.

(** The notebook as recorded: the misspelled finding of the response is
    stored with the others. *)
Example recorded_run :
  result_dict
    (after (notebook (txt "llama-2") system_form schema_literal report_form
              instructions_form (fun _ => recorded_response)) fresh)
  = [(1%Z, PyDict [(txt "cardiomegaly", PyBool false);
                   (txt "lung_opacity", PyBool true);
                   (txt "pneumothorax", PyBool false);
                   (txt "pleural_effusion", PyBool false);
                   (txt "pulmonary_rama", PyBool false);
                   (txt "abnormal_study", PyBool true)])].
Proof. vm_compute. reflexivity. Qed.

(** A response of pure prose: the report is stored with [None]. *)
Example prose_only_run :
  result_dict
    (after (notebook (txt "mistral") system_form schema_literal report_form
              instructions_form (fun _ => txt "The study is normal.")) fresh)
  = [(1%Z, PyNone)].
Proof. vm_compute. reflexivity. Qed.

End Prompting.

(** * Further properties of the matcher and of [findall] *)

Module SpanFacts.
Import Regex RegexFacts FindallFacts ExtractionFacts Layout.

(** What [close] consumes has one closing brace more than the depth it
    started from, on top of one for each brace it opens. *)
Lemma close_counts (s : text) :
  forall d m r,
    close d s = Some (m, r) ->
    count_occ N.eq_dec m RBRACE
    = (count_occ N.eq_dec m LBRACE + S d)%nat.
Proof.
  induction s as [| c s IH]; intros d m r H; simpl in H; [discriminate |].
  destruct (N.eqb_spec c RBRACE) as [-> | Hr].
  - destruct d as [| d].
    + inversion H; subst. reflexivity.
    + destruct (close d s) as [[m' r'] |] eqn:E; inversion H; subst.
      apply IH in E. cbn [cons_fst fst].
      rewrite (count_occ_cons_eq N.eq_dec m' eq_refl).
      rewrite (count_occ_cons_neq N.eq_dec m'); [lia | discriminate].
  - destruct (N.eqb_spec c LBRACE) as [-> | Hl].
    + destruct (close (S d) s) as [[m' r'] |] eqn:E; inversion H; subst.
      apply IH in E. cbn [cons_fst fst].
      rewrite (count_occ_cons_eq N.eq_dec m' eq_refl).
      rewrite (count_occ_cons_neq N.eq_dec m'); [lia | discriminate].
    + destruct (close d s) as [[m' r'] |] eqn:E; inversion H; subst.
      apply IH in E. cbn [cons_fst fst].
      rewrite !(count_occ_cons_neq N.eq_dec m') by congruence. exact E.
Qed.

Lemma span_counts (m : text) :
  span m ->
  count_occ N.eq_dec m LBRACE = count_occ N.eq_dec m RBRACE.
Proof.
  intros H. pose proof (match_at_complete m [] H) as E.
  rewrite app_nil_r in E. destruct m as [| c m']; [discriminate |].
  simpl in E. destruct (N.eqb_spec c LBRACE) as [-> | Hc]; [| discriminate].
  destruct (close 0 m') as [[m2 r2] |] eqn:Ec; [| discriminate].
  inversion E; subst. apply close_counts in Ec.
  rewrite (count_occ_cons_eq N.eq_dec m' eq_refl).
  rewrite (count_occ_cons_neq N.eq_dec m'); [lia | discriminate].
Qed.

Lemma span_delimited (m : text) :
  span m -> exists b, m = LBRACE :: b ++ [RBRACE].
Proof.
  intros H. destruct (span_shape m H) as (b & -> & _). now exists b.
Qed.

(** Without a closing brace nothing closes. *)
Lemma close_needs_brace (s : text) :
  forall d, count_occ N.eq_dec s RBRACE = 0%nat -> close d s = None.
Proof.
  induction s as [| c s IH]; intros d H; [reflexivity |].
  simpl in H. destruct (N.eq_dec c RBRACE) as [-> | Hc]; [discriminate |].
  simpl. apply N.eqb_neq in Hc. rewrite Hc.
  destruct (c =? LBRACE); now rewrite IH.
Qed.

Lemma search_needs_brace (s : text) :
  count_occ N.eq_dec s RBRACE = 0%nat -> search s = None.
Proof.
  induction s as [| c s IH]; intros H; [reflexivity |].
  assert (Hs : count_occ N.eq_dec s RBRACE = 0%nat).
  { simpl in H. now destruct (N.eq_dec c RBRACE). }
  rewrite search_unfold. cbn [match_at].
  rewrite (close_needs_brace s 0 Hs), (IH Hs).
  now destruct (c =? LBRACE).
Qed.

(** The search fails only where the pattern matches nowhere. *)
Lemma search_finds (pre m post : text) :
  span m -> search (pre ++ m ++ post) <> None.
Proof.
  intros Hm. induction pre as [| c pre IH].
  - simpl app. rewrite search_unfold, (match_at_complete m post Hm).
    discriminate.
  - simpl app. rewrite search_unfold.
    destruct (match_at (c :: pre ++ m ++ post)) as [[m' r'] |];
      [discriminate |].
    destruct (search (pre ++ m ++ post)) as [[[p' m'] r'] |];
      [discriminate | contradiction].
Qed.

Lemma no_span_search (s : text) : search s = None -> no_span s.
Proof.
  intros H pre m post -> Hm. now apply (search_finds pre m post Hm).
Qed.

Lemma search_shorter (s pre m r : text) :
  search s = Some (pre, m, r) -> (List.length r < List.length s)%nat.
Proof.
  intros H. apply search_spec in H. destruct H as (-> & Hm & _).
  destruct (span_delimited m Hm) as (b & ->).
  rewrite !length_app. cbn [List.length]. lia.
Qed.

Lemma findall_spans_upto (n : nat) :
  forall s, (List.length s <= n)%nat -> Forall span (findall s).
Proof.
  induction n as [| n IH]; intros s Hn; rewrite findall_search.
  - destruct s; [constructor | simpl in Hn; lia].
  - destruct (search s) as [[[pre m] r] |] eqn:E; [| constructor].
    pose proof (search_shorter _ _ _ _ E) as Hr.
    apply search_spec in E. destruct E as (_ & Hm & _).
    constructor; [exact Hm | apply IH; lia].
Qed.

Lemma findall_spans (s : text) : Forall span (findall s).
Proof. apply (findall_spans_upto (List.length s)). lia. Qed.

(** Nothing the pattern matches lies before the first match. *)
Lemma gap_no_span (s pre m r : text) :
  search s = Some (pre, m, r) -> no_span pre.
Proof.
  intros H. apply search_spec in H. destruct H as (_ & _ & Hleft).
  intros a w b -> Hw.
  destruct (span_delimited w Hw) as (w' & Ew).
  pose proof (match_at_complete w (b ++ m ++ r) Hw) as E.
  assert (Hnone : match_at (LBRACE :: ((w' ++ [RBRACE]) ++ b) ++ m ++ r)
                  = None).
  { apply (Hleft a). rewrite Ew. simpl. now rewrite <- !app_assoc. }
  rewrite <- app_assoc in Hnone. rewrite Ew in E. simpl app in E.
  congruence.
Qed.

Lemma findall_layout_upto (n : nat) :
  forall s,
    (List.length s <= n)%nat ->
    exists gaps tail,
      List.length gaps = List.length (findall s) /\
      interleave gaps (findall s) tail = s /\
      Forall no_span gaps /\
      no_span tail.
Proof.
  induction n as [| n IH]; intros s Hn; rewrite findall_search.
  - destruct s; [| simpl in Hn; lia].
    exists [], []. repeat split; [constructor |].
    apply no_span_search. reflexivity.
  - destruct (search s) as [[[pre m] r] |] eqn:E.
    + pose proof (search_shorter _ _ _ _ E) as Hr.
      pose proof (gap_no_span _ _ _ _ E) as Hpre.
      apply search_spec in E. destruct E as (-> & Hm & _).
      destruct (IH r) as (gaps & tail & Hlen & Hs & Hg & Ht); [lia |].
      exists (pre :: gaps), tail. simpl. rewrite Hlen, Hs.
      repeat split; [| exact Ht]. now constructor.
    + exists [], s. repeat split; [constructor |].
      now apply no_span_search.
Qed.

End SpanFacts.

(** * Further properties of the decoder *)

Module DictFacts.
Import Json JsonFacts ExtractionFacts.

Lemma text_eqb_neq (a b : text) : text_eqb a b = false <-> a <> b.
Proof.
  rewrite <- text_eqb_spec. now destruct (text_eqb a b).
Qed.

Lemma dict_set_fresh (k : text) (v : pyval) (d : list (text * pyval)) :
  ~ In k (map fst d) -> dict_set k v d = d ++ [(k, v)].
Proof.
  induction d as [| [k' v'] d IH]; intros H; [reflexivity |].
  simpl in *. destruct (text_eqb k k') eqn:E.
  - apply text_eqb_spec in E. subst. tauto.
  - f_equal. apply IH. tauto.
Qed.

Lemma dict_set_present (k : text) (v : pyval) (d : list (text * pyval)) :
  In k (map fst d) -> map fst (dict_set k v d) = map fst d.
Proof.
  induction d as [| [k' v'] d IH]; intros H; [destruct H |].
  simpl. destruct (text_eqb k k') eqn:E; [reflexivity |].
  apply text_eqb_neq in E. simpl. f_equal. apply IH.
  destruct H as [H | H]; [simpl in H; congruence | exact H].
Qed.

Lemma dict_set_nodup (k : text) (v : pyval) (d : list (text * pyval)) :
  NoDup (map fst d) -> NoDup (map fst (dict_set k v d)).
Proof.
  intros H.
  destruct (in_dec (list_eq_dec N.eq_dec) k (map fst d)) as [Hk | Hk].
  - now rewrite dict_set_present.
  - rewrite (dict_set_fresh k v d Hk), map_app.
    apply NoDup_app; [exact H | repeat constructor; intros [] |].
    intros x Hx [<- | []]. contradiction.
Qed.

Lemma fold_dict_set_nodup (pairs d : list (text * pyval)) :
  NoDup (map fst d) ->
  NoDup (map fst
           (fold_left (fun d kv => dict_set (fst kv) (snd kv) d) pairs d)).
Proof.
  revert d. induction pairs as [| [k v] pairs IH]; intros d H; [exact H |].
  simpl. apply IH. now apply dict_set_nodup.
Qed.

(** A dict has each key once. *)
Lemma dict_of_pairs_nodup (pairs : list (text * pyval)) :
  NoDup (map fst (dict_of_pairs pairs)).
Proof. apply fold_dict_set_nodup. constructor. Qed.

Lemma fold_dict_set_distinct (pairs d : list (text * pyval)) :
  NoDup (map fst (d ++ pairs)) ->
  fold_left (fun d kv => dict_set (fst kv) (snd kv) d) pairs d = d ++ pairs.
Proof.
  revert d. induction pairs as [| [k v] pairs IH]; intros d H.
  - now rewrite app_nil_r.
  - simpl. rewrite dict_set_fresh.
    + rewrite IH; rewrite <- app_assoc; [reflexivity | exact H].
    + rewrite map_app in H. simpl in H.
      apply NoDup_remove_2 in H. rewrite in_app_iff in H. tauto.
Qed.

(** Pairs with distinct keys are kept as they come. *)
Lemma dict_of_pairs_distinct (pairs : list (text * pyval)) :
  NoDup (map fst pairs) -> dict_of_pairs pairs = pairs.
Proof. intros H. now apply (fold_dict_set_distinct pairs []). Qed.

(** What the object loop returns is a dict. *)
Lemma object_members_dict (scan : text -> parse pyval) (n : nat) :
  forall s pairs v r,
    object_members scan n s pairs = Parsed v r ->
    exists ps, v = PyDict (dict_of_pairs ps).
Proof.
  induction n as [| n IH]; intros s pairs v r H; [discriminate |].
  cbn [object_members] in H.
  destruct (scanstring s []) as [[key s1] |]; [| discriminate].
  destruct (skip_ws s1) as [| c s2]; [discriminate |].
  destruct (c =? ch ":"); [| discriminate].
  destruct (scan (skip_ws s2)) as [value s3 | |]; try discriminate.
  destruct (skip_ws s3) as [| d s4]; [discriminate |].
  destruct (d =? RBRACE); [inversion H; subst; now eexists |].
  destruct (d =? ch ","); [| discriminate].
  destruct (skip_ws s4) as [| q s5]; [discriminate |].
  destruct (q =? DQUOTE); [| discriminate].
  now apply IH in H.
Qed.

Lemma JSONObject_dict (scan : text -> parse pyval) (n : nat) (s r : text)
      (v : pyval) :
  JSONObject scan n s = Parsed v r -> exists ps, v = PyDict (dict_of_pairs ps).
Proof.
  unfold JSONObject. intros H.
  destruct (skip_ws s) as [| c s1]; [discriminate |].
  destruct (c =? RBRACE); [inversion H; subst; now exists [] |].
  destruct (c =? DQUOTE); [| discriminate].
  now apply object_members_dict in H.
Qed.

(** A text that starts with an opening brace decodes to a dict or not at
    all. *)
Lemma loads_brace_dict (s : text) (v : pyval) :
  loads (LBRACE :: s) = Ok v -> exists ps, v = PyDict (dict_of_pairs ps).
Proof.
  unfold loads, decode.
  change (skip_ws (LBRACE :: s)) with (LBRACE :: s).
  cbn [scan_once].
  change (LBRACE =? DQUOTE) with false. change (LBRACE =? LBRACE) with true.
  cbv iota.
  change (match LBRACE with 65279 => true | _ => false end) with false.
  destruct (JSONObject _ _ s) as [v' r | |] eqn:E.
  - apply JSONObject_dict in E. destruct (skip_ws r); [| discriminate].
    intros H. inversion H; subst. exact E.
  - discriminate.
  - discriminate.
Qed.

End DictFacts.

(** * Decoding a flat object of flags *)

Module FlatFacts.
Import Json JsonFacts Regex RegexFacts FindallFacts ExtractionFacts DictFacts
       Flat.

Lemma skip_ws_blank (w : text) (c : char) (rest : text) :
  blank w -> is_ws c = false -> skip_ws (w ++ c :: rest) = c :: rest.
Proof.
  intros Hw Hc. induction Hw as [| x w Hx Hw IH]; simpl.
  - now rewrite Hc.
  - now rewrite Hx.
Qed.

Lemma skip_ws_blank_end (w : text) : blank w -> skip_ws w = [].
Proof.
  intros Hw. induction Hw as [| x w Hx Hw IH]; simpl; [reflexivity |].
  now rewrite Hx.
Qed.

Lemma plain_char_spec (c : char) :
  plain_char c = true ->
  (c =? DQUOTE) = false /\ (c =? BACKSLASH) = false /\ (c <? 32) = false /\
  is_brace c = false.
Proof.
  unfold plain_char. rewrite !andb_true_iff, !negb_true_iff.
  intros [[[H32 Hq] Hb] Hbr]. repeat split; try assumption.
  apply N.ltb_ge. now apply N.leb_le.
Qed.

(** A plain name is read back as it stands. *)
Lemma scanstring_plain (k : text) :
  forall acc rest,
    Forall (fun c => plain_char c = true) k ->
    scanstring (k ++ DQUOTE :: rest) acc = Some (rev acc ++ k, rest).
Proof.
  induction k as [| c k IH]; intros acc rest Hk.
  - simpl. now rewrite app_nil_r.
  - inversion Hk as [| c' k' Hc Hk']; subst.
    destruct (plain_char_spec c Hc) as (Hq & Hb & Hlt & _).
    simpl app. cbn [scanstring]. rewrite Hq, Hb, Hlt.
    rewrite (IH (c :: acc) rest Hk'). simpl. now rewrite <- app_assoc.
Qed.

Lemma scan_once_literal (f : nat) (b : bool) (rest : text) :
  scan_once (S f) (literal b ++ rest) = Parsed (PyBool b) rest.
Proof. destruct b; reflexivity. Qed.

Lemma literal_head (b : bool) (rest : text) :
  exists c t, literal b ++ rest = c :: t /\ is_ws c = false.
Proof. destruct b; eexists; eexists; (split; [reflexivity | reflexivity]). Qed.

Lemma render_tail_length (ms : list member) :
  (List.length ms <= List.length (render_tail ms))%nat.
Proof.
  induction ms as [| m ms IH]; simpl; [lia |].
  rewrite length_app. lia.
Qed.

Lemma render_member_app (m : member) (rest : text) :
  render_member m ++ rest
  = lead m ++ DQUOTE :: name m ++ DQUOTE :: mid m ++ ch ":" :: gap m
    ++ literal (flag m) ++ trail m ++ rest.
Proof.
  unfold render_member. now repeat (rewrite <- app_assoc; cbn [app]).
Qed.

Lemma render_tail_cons (m : member) (ms : list member) (rest : text) :
  render_tail (m :: ms) ++ rest
  = ch "," :: lead m ++ DQUOTE :: name m ++ DQUOTE :: mid m ++ ch ":"
    :: gap m ++ literal (flag m) ++ trail m ++ render_tail ms ++ rest.
Proof.
  cbn [render_tail]. rewrite <- app_comm_cons, <- app_assoc.
  now rewrite render_member_app.
Qed.

(** One round of the object loop on a well-formed member followed by the
    character [d]. *)
Lemma object_members_step (m : member) (n f : nat)
      (pairs : list (text * pyval)) (d : char) (rest : text) :
  well_formed m -> is_ws d = false ->
  object_members (scan_once (S f)) (S n)
    (name m ++ DQUOTE :: mid m ++ ch ":" :: gap m
     ++ literal (flag m) ++ trail m ++ d :: rest)
    pairs
  = if d =? RBRACE then
      Parsed (PyDict (dict_of_pairs (pairs ++ [entry m]))) rest
    else if d =? ch "," then
      match skip_ws rest with
      | q :: s5 =>
          if q =? DQUOTE
          then object_members (scan_once (S f)) n s5 (pairs ++ [entry m])
          else Fail
      | [] => Fail
      end
    else Fail.
Proof.
  intros (Hlead & Hname & Hmid & Hgap & Htrail) Hd.
  cbn [object_members].
  rewrite (scanstring_plain (name m) [] _ Hname). cbn [rev app].
  rewrite (skip_ws_blank (mid m) (ch ":") _ Hmid eq_refl).
  change (ch ":" =? ch ":") with true. cbv iota.
  destruct (literal_head (flag m) (trail m ++ d :: rest))
    as (c0 & t0 & E0 & Hc0).
  rewrite E0, (skip_ws_blank (gap m) c0 t0 Hgap Hc0), <- E0.
  rewrite scan_once_literal.
  rewrite (skip_ws_blank (trail m) d rest Htrail Hd).
  reflexivity.
Qed.

(** The loop of the object, entered after the opening quote of the first
    name, reads all the members. *)
Lemma object_members_flat (ms : list member) :
  forall m n f pairs rest,
    (List.length ms < n)%nat ->
    well_formed m -> Forall well_formed ms ->
    object_members (scan_once (S f)) n
      (name m ++ DQUOTE :: mid m ++ ch ":" :: gap m
       ++ literal (flag m) ++ trail m ++ render_tail ms ++ RBRACE :: rest)
      pairs
    = Parsed (PyDict (dict_of_pairs (pairs ++ entry m :: map entry ms))) rest.
Proof.
  induction ms as [| m2 ms IH]; intros m n f pairs rest Hn Hm Hms;
    (destruct n as [| n]; [simpl in Hn; lia |]).
  - simpl render_tail. simpl app at 6.
    rewrite (object_members_step m n f pairs RBRACE rest Hm eq_refl).
    change (RBRACE =? RBRACE) with true. reflexivity.
  - inversion Hms as [| m' ms' Hm2 Hms2]; subst.
    rewrite (render_tail_cons m2 ms (RBRACE :: rest)).
    rewrite (object_members_step m n f pairs (ch ",") _ Hm eq_refl).
    change (ch "," =? RBRACE) with false.
    change (ch "," =? ch ",") with true. cbv iota.
    destruct Hm2 as (Hlead2 & Hrest2).
    rewrite (skip_ws_blank (lead m2) DQUOTE _ Hlead2 eq_refl).
    change (DQUOTE =? DQUOTE) with true. cbv iota.
    rewrite IH; [| simpl in Hn; lia | now split | exact Hms2].
    rewrite <- app_assoc. reflexivity.
Qed.

Lemma blank_brace_free (w : text) :
  blank w -> Forall (fun c => is_brace c = false) w.
Proof.
  apply Forall_impl. intros c Hc. unfold is_ws in Hc.
  rewrite !orb_true_iff, !N.eqb_eq in Hc.
  destruct Hc as [[[-> | ->] | ->] | ->]; reflexivity.
Qed.

Lemma plain_brace_free (w : text) :
  Forall (fun c => plain_char c = true) w ->
  Forall (fun c => is_brace c = false) w.
Proof.
  apply Forall_impl. intros c Hc. now apply plain_char_spec in Hc.
Qed.

Lemma literal_brace_free (b : bool) :
  Forall (fun c => is_brace c = false) (literal b).
Proof. destruct b; repeat constructor. Qed.

Lemma render_member_brace_free (m : member) :
  well_formed m -> Forall (fun c => is_brace c = false) (render_member m).
Proof.
  intros (Hlead & Hname & Hmid & Hgap & Htrail). unfold render_member.
  repeat first
    [ apply Forall_app; split
    | apply Forall_cons; [reflexivity |] ];
    auto using blank_brace_free, plain_brace_free, literal_brace_free.
Qed.

Lemma render_tail_brace_free (ms : list member) :
  Forall well_formed ms -> Forall (fun c => is_brace c = false) (render_tail ms).
Proof.
  induction 1 as [| m ms Hm Hms IH]; simpl; [constructor |].
  apply Forall_cons; [reflexivity |].
  apply Forall_app. split; [now apply render_member_brace_free | exact IH].
Qed.

Lemma brace_free_body (w : text) :
  Forall (fun c => is_brace c = false) w -> matches expr body w.
Proof.
  induction 1 as [| c w Hc Hw IH]; [apply m_star_nil |].
  now apply body_cons.
Qed.

(** A flat object is one match of the pattern. *)
Lemma render_object_span (inner : text) (ms : list member) :
  blank inner -> Forall well_formed ms -> span (render_object inner ms).
Proof.
  intros Hin Hms. unfold render_object. apply span_intro, brace_free_body.
  destruct Hms as [| m ms Hm Hms]; [now apply blank_brace_free |].
  apply Forall_app.
  split; [now apply render_member_brace_free
         | now apply render_tail_brace_free].
Qed.

(** [json.loads] on a text that starts with an opening brace. *)
Lemma loads_brace (s : text) :
  loads (LBRACE :: s)
  = match JSONObject (scan_once (S (List.length s))) (S (List.length s)) s with
    | Parsed v r =>
        match skip_ws r with
        | [] => Ok v
        | _ :: _ => Raise JSONDecodeError
        end
    | _ => Raise JSONDecodeError
    end.
Proof.
  unfold loads, decode.
  change (skip_ws (LBRACE :: s)) with (LBRACE :: s).
  change (scan_once (S (List.length (LBRACE :: s))) (LBRACE :: s))
    with (JSONObject (scan_once (S (List.length s))) (S (List.length s)) s).
  destruct (JSONObject _ _ s) as [v r | |]; [| reflexivity | reflexivity].
  now destruct (skip_ws r).
Qed.

(** [json.loads] on a flat object gives the dict of its members. *)
Lemma loads_flat (inner : text) (ms : list member) :
  blank inner -> Forall well_formed ms ->
  loads (render_object inner ms)
  = Ok (PyDict (dict_of_pairs (map entry ms))).
Proof.
  intros Hin Hms. unfold render_object. rewrite loads_brace.
  unfold JSONObject. destruct Hms as [| m ms Hm Hms].
  - rewrite (skip_ws_blank inner RBRACE [] Hin eq_refl).
    change (RBRACE =? RBRACE) with true. reflexivity.
  - rewrite <- app_assoc, render_member_app.
    pose proof Hm as (Hlead & _).
    rewrite (skip_ws_blank (lead m) DQUOTE _ Hlead eq_refl).
    change (DQUOTE =? RBRACE) with false.
    change (DQUOTE =? DQUOTE) with true. cbv iota.
    rewrite (object_members_flat ms m _ _ [] []); try assumption.
    + reflexivity.
    + pose proof (render_tail_length ms).
      repeat (rewrite length_app || cbn [List.length]). lia.
Qed.

End FlatFacts.

(** * Reading a prompt back *)

Module PromptFacts.
Import Notebook ExtractionFacts NotebookFacts Composed.

(** Two texts that agree up to and after the first occurrence of [c]. *)
Lemma split_at_first (c : char) (u : text) :
  forall u' x x',
    ~ In c u -> ~ In c u' -> u ++ c :: x = u' ++ c :: x' ->
    u = u' /\ x = x'.
Proof.
  induction u as [| a u IH]; intros [| a' u'] x x' Hu Hu' E; simpl in *.
  - now inversion E.
  - inversion E; subst. tauto.
  - inversion E; subst. tauto.
  - inversion E; subst. destruct (IH u' x x') as [-> ->]; tauto.
Qed.

Lemma fence_backticks : FENCE = [BACKTICK; BACKTICK; BACKTICK].
Proof. reflexivity. Qed.

Lemma fenced_inv (u u' x x' : text) :
  ~ In BACKTICK u -> ~ In BACKTICK u' ->
  u ++ FENCE ++ x = u' ++ FENCE ++ x' -> u = u' /\ x = x'.
Proof.
  intros Hu Hu' E. rewrite fence_backticks in E. cbn [app] in E.
  destruct (split_at_first BACKTICK u u' _ _ Hu Hu' E) as [-> E2].
  now inversion E2.
Qed.

End PromptFacts.

(** * Brace matching as depth counting *)

Module DepthFacts.
Import Regex RegexFacts FindallFacts ExtractionFacts SpanFacts Depth.










End DepthFacts.

(** * Decoding a flat object of strings *)

Module QuotedFacts.
Import Json JsonFacts Regex RegexFacts FindallFacts ExtractionFacts DictFacts
       FlatFacts Quoted.










(** *** The object is one match of the pattern *)









End QuotedFacts.

(** * Brace matching and string literals

    JSON samples in the comments are written as in [jtxt], with an
    apostrophe for the double quote. *)

Module BraceCounting.
Import Regex RegexFacts FindallFacts ExtractionFacts Depth DepthFacts
       Quoted QuotedFacts.



End BraceCounting.

(** * Further properties of the extraction

    JSON samples in the comments are written as in [jtxt], with an
    apostrophe for the double quote. *)

Module ExtractionExtras.
Import Regex RegexFacts FindallFacts ExtractionFacts SpanFacts DictFacts
       FlatFacts Layout Flat.

(** X1: [findall] is the left-to-right scan of the pattern.  It returns
    nothing exactly when the pattern matches nowhere in the text; otherwise
    its first item is the first match of the text and the other items are
    what it returns on the text after that match. *)
Theorem findall_by_pattern (s : text) :
  (findall s = [] <-> no_span s) /\
  (forall m rest,
      findall s = m :: rest <->
      exists pre post,
        s = pre ++ m ++ post /\ first_span pre m post /\
        rest = findall post).
Proof.
  rewrite findall_search.
  destruct (search s) as [[[pre0 m0] r0] |] eqn:E.
  - split.
    + split; [discriminate |].
      intros H. apply search_no_span in H. congruence.
    + intros m rest. split.
      * intros H. inversion H; subst. exists pre0, r0.
        apply first_span_search in E. destruct E as [-> Hfirst].
        split; [reflexivity | split; [exact Hfirst | reflexivity]].
      * intros (pre & post & -> & Hfirst & ->).
        rewrite (search_first_span pre m post Hfirst) in E.
        now inversion E.
  - split.
    + split; [intros _; now apply no_span_search | reflexivity].
    + intros m rest. split; [discriminate |].
      intros (pre & post & -> & Hfirst & _).
      rewrite (search_first_span pre m post Hfirst) in E. discriminate.
Qed.

(** X2: the items of [findall] lie in the text in order and do not
    overlap: the text is a gap, the first item, a gap, the second item and
    so on, then a tail; the pattern matches nowhere inside a gap or inside
    the tail. *)
Theorem findall_layout (s : text) :
  exists gaps tail,
    List.length gaps = List.length (findall s) /\
    interleave gaps (findall s) tail = s /\
    Forall no_span gaps /\
    no_span tail.
Proof. apply (findall_layout_upto (List.length s)). lia. Qed.

(** X3: every item of [findall] is a match of the pattern; it starts with
    an opening brace, ends with a closing brace and has as many opening as
    closing braces. *)
Theorem findall_items_balanced (s m : text) :
  In m (findall s) ->
  span m /\
  (exists b, m = LBRACE :: b ++ [RBRACE]) /\
  count_occ N.eq_dec m LBRACE = count_occ N.eq_dec m RBRACE.
Proof.
  intros H. pose proof (findall_spans s) as Hall.
  rewrite Forall_forall in Hall. specialize (Hall m H).
  split; [exact Hall |].
  split; [now apply span_delimited | now apply span_counts].
Qed.

Lemma findall_items_balanced_witness :
  In (jtxt "{'a': {'b': 1}}") (findall (jtxt "x {'a': {'b': 1}} y {z}")) /\
  span (jtxt "{'a': {'b': 1}}") /\
  (exists b, jtxt "{'a': {'b': 1}}" = LBRACE :: b ++ [RBRACE]) /\
  count_occ N.eq_dec (jtxt "{'a': {'b': 1}}") LBRACE
  = count_occ N.eq_dec (jtxt "{'a': {'b': 1}}") RBRACE.
Proof.
  assert (H : In (jtxt "{'a': {'b': 1}}")
                (findall (jtxt "x {'a': {'b': 1}} y {z}"))).
  { vm_compute. left. reflexivity. }
  split; [exact H |].
  apply (findall_items_balanced (jtxt "x {'a': {'b': 1}} y {z}")). exact H.
Defined.

(** X4: [json_from_str] returns [None] exactly when the pattern matches
    nowhere in the text.  A text with a balanced-brace span never yields
    [None]: it yields a dict or raises. *)
Theorem none_iff_no_span (s : text) :
  json_from_str s = Ok PyNone <-> no_span s.
Proof.
  rewrite json_from_str_search. split.
  - destruct (search s) as [[[pre m] r] |] eqn:E;
      [| intros _; now apply no_span_search].
    intros H. apply search_spec in E. destruct E as (_ & Hm & _).
    destruct (span_delimited m Hm) as (b & ->).
    apply loads_brace_dict in H. destruct H as (ps & H). discriminate.
  - intros H. now rewrite (search_no_span s H).
Qed.

(** X5: when [json_from_str] returns, the value is [None] or a dict, never
    a list, a string, a number or a boolean; and a dict it returns has each
    key once. *)
Theorem result_is_none_or_dict (s : text) (v : pyval) :
  json_from_str s = Ok v ->
  v = PyNone \/
  exists items, v = PyDict items /\ NoDup (map fst items).
Proof.
  rewrite json_from_str_search.
  destruct (search s) as [[[pre m] r] |] eqn:E.
  - intros H. right. apply search_spec in E. destruct E as (_ & Hm & _).
    destruct (span_delimited m Hm) as (b & ->).
    apply loads_brace_dict in H. destruct H as (ps & ->).
    eexists. split; [reflexivity | apply dict_of_pairs_nodup].
  - intros H. left. now inversion H.
Qed.

Lemma result_is_none_or_dict_witness :
  json_from_str (jtxt "Sure: {'a': true, 'b': [1, 2], 'a': null} ok")
  = Ok (PyDict [(txt "a", PyNone);
                (txt "b", PyList [PyInt 1; PyInt 2])]) /\
  (PyDict [(txt "a", PyNone); (txt "b", PyList [PyInt 1; PyInt 2])] = PyNone
   \/ exists items,
       PyDict [(txt "a", PyNone); (txt "b", PyList [PyInt 1; PyInt 2])]
       = PyDict items /\ NoDup (map fst items)).
Proof.
  split; [vm_compute; reflexivity |].
  apply (result_is_none_or_dict
           (jtxt "Sure: {'a': true, 'b': [1, 2], 'a': null} ok")).
  vm_compute. reflexivity.
Defined.

(** X6: a text without any closing brace yields [None], however many
    opening braces it has: an answer cut off before the object is closed is
    not an error. *)
Theorem unclosed_object_is_none (s : text) :
  count_occ N.eq_dec s RBRACE = 0%nat -> json_from_str s = Ok PyNone.
Proof.
  intros H. now rewrite json_from_str_search, (search_needs_brace s H).
Qed.

Lemma unclosed_object_is_none_witness :
  count_occ N.eq_dec (jtxt "Here: {'cardiomegaly': false, 'lung_op") RBRACE
  = 0%nat /\
  json_from_str (jtxt "Here: {'cardiomegaly': false, 'lung_op") = Ok PyNone.
Proof.
  split; [reflexivity |]. apply unclosed_object_is_none. reflexivity.
Defined.

(** X7: round trip for the answer the prompt asks for.  Take a flat object
    of flags (plain names, values [true] or [false], any JSON whitespace
    between the tokens), put prose without an opening brace before it and
    anything after it: [json_from_str] returns the dict of its members, a
    repeated name keeping its first place and its last value.  With
    distinct names the dict lists the members as written. *)
Theorem flat_object_round_trip (pre inner post : text) (ms : list member) :
  count_occ N.eq_dec pre LBRACE = 0%nat ->
  blank inner ->
  Forall well_formed ms ->
  json_from_str (pre ++ render_object inner ms ++ post)
  = Ok (PyDict (dict_of_pairs (map entry ms))) /\
  (NoDup (map name ms) -> dict_of_pairs (map entry ms) = map entry ms).
Proof.
  intros Hpre Hin Hms. split.
  - rewrite json_from_str_search.
    rewrite (search_after_prose pre _ post Hpre
               (render_object_span inner ms Hin Hms)).
    now apply loads_flat.
  - intros Hnames. apply dict_of_pairs_distinct.
    now rewrite map_map.
Qed.

Lemma flat_object_round_trip_witness :
  let pre :=
    txt "Of course! I'd be happy to help you analyze the radiology report. Here are my findings based on the JSON schema provided:" ++ [NL] in
  let line k b t :=
    {| lead := [NL]; name := k; mid := []; gap := txt " "; flag := b;
       trail := t |} in
  let ms := [line (txt "cardiomegaly") false [];
             line (txt "lung_opacity") true [];
             line (txt "pneumothorax") false [];
             line (txt "pleural_effusion") false [];
             line (txt "pulmonary_rama") false [];
             line (txt "abnormal_study") true [NL]] in
  let post :=
    [NL] ++ txt "Explanation:" ++ [NL]
    ++ txt "The report states that there is no focal consolidation, pneumothorax, or pleural effusion." ++ [NL] in
  count_occ N.eq_dec pre LBRACE = 0%nat /\
  Forall well_formed ms /\
  NoDup (map name ms) /\
  Notebook.recorded_response = pre ++ render_object [] ms ++ post /\
  json_from_str Notebook.recorded_response = Ok (PyDict (map entry ms)).
Proof.
  intros pre line ms post.
  assert (Hpre : count_occ N.eq_dec pre LBRACE = 0%nat)
    by (vm_compute; reflexivity).
  assert (Hms : Forall well_formed ms)
    by (repeat constructor).
  assert (Hnames : NoDup (map name ms)).
  { repeat constructor; vm_compute; intuition discriminate. }
  assert (Hshape : Notebook.recorded_response
                   = pre ++ render_object [] ms ++ post)
    by (vm_compute; reflexivity).
  split; [exact Hpre |]. split; [exact Hms |]. split; [exact Hnames |].
  split; [exact Hshape |].
  destruct (flat_object_round_trip pre [] post ms Hpre (Forall_nil _) Hms)
    as [Hres Hdistinct].
  rewrite Hshape, Hres, (Hdistinct Hnames). reflexivity.
Defined.

End ExtractionExtras.

(** * Further properties of the prompt cells and of a run *)

Module PromptExtras.
Import Notebook ExtractionFacts NotebookFacts Composed PromptFacts.

(** X8: the user prompt can be read back.  When neither the report nor the
    schema holds a backtick, two calls that build the same prompt had the
    same report, the same schema and the same additional instructions. *)
Theorem prompt_determines_inputs (r s a r' s' a' : text) :
  ~ In BACKTICK r -> ~ In BACKTICK s ->
  ~ In BACKTICK r' -> ~ In BACKTICK s' ->
  prompt_fstring r s a = prompt_fstring r' s' a' ->
  r = r' /\ s = s' /\ a = a'.
Proof.
  intros Hr Hs Hr' Hs' E. unfold prompt_fstring in E.
  apply app_inv_head in E. apply app_inv_head in E.
  apply fenced_inv in E; [| assumption | assumption].
  destruct E as [-> E]. do 4 apply app_inv_head in E.
  apply fenced_inv in E; [| assumption | assumption].
  destruct E as [-> E]. apply app_inv_head in E. apply app_inv_tail in E.
  now subst.
Qed.

Lemma prompt_determines_inputs_witness :
  ~ In BACKTICK (txt "No pneumothorax.") /\
  ~ In BACKTICK (jtxt "{'pneumothorax': {'type': 'boolean'}}") /\
  (prompt_fstring (txt "No pneumothorax.")
     (jtxt "{'pneumothorax': {'type': 'boolean'}}") (txt "Use `true`.")
   = prompt_fstring (txt "No pneumothorax.")
       (jtxt "{'pneumothorax': {'type': 'boolean'}}") (txt "Use `true`.") ->
   txt "No pneumothorax." = txt "No pneumothorax." /\
   jtxt "{'pneumothorax': {'type': 'boolean'}}"
   = jtxt "{'pneumothorax': {'type': 'boolean'}}" /\
   txt "Use `true`." = txt "Use `true`.").
Proof.
  assert (Hr : ~ In BACKTICK (txt "No pneumothorax."))
    by (vm_compute; intuition discriminate).
  assert (Hs : ~ In BACKTICK (jtxt "{'pneumothorax': {'type': 'boolean'}}"))
    by (vm_compute; intuition discriminate).
  split; [exact Hr |]. split; [exact Hs |].
  apply prompt_determines_inputs; assumption.
Defined.

(** X9: the fences are not escaped.  A report that holds a closing fence,
    the request sentence and an opening fence gives the very prompt of a
    shorter report whose schema it forges: the text after the first fence
    pair is read as schema, and the real schema ends up in the place of the
    additional instructions. *)
Theorem fences_are_not_escaped (r s s' a : text) :
  prompt_fstring (r ++ FENCE ++ [NL] ++ REQUEST ++ [NL] ++ FENCE ++ s) s' a
  = prompt_fstring r s (REQUEST ++ [NL] ++ FENCE ++ s' ++ FENCE ++ [NL] ++ a).
Proof.
  unfold prompt_fstring. now rewrite <- !app_assoc.
Qed.


(** X11: the report reaches the prompt through the user-prompt cell only.
    Changing the report and running the template cell and the choice of the
    template, without the user-prompt cell, changes [report_text] but not
    [full_prompt]: whatever the new report, the same prompt is sent. *)
Theorem stale_report (g : globals) (r1 r2 : text) :
  exists g1 g2,
    run [sample_report r1; prompt_templates; select_template] g = Ok g1 /\
    run [sample_report r2; prompt_templates; select_template] g = Ok g2 /\
    report_text g1 = r1 /\ report_text g2 = r2 /\
    full_prompt g1 = full_prompt g2.
Proof.
  run_cells. eexists. eexists.
  split; [reflexivity |]. split; [reflexivity |]. run_cells.
  repeat split.
Qed.


(** X13: for every family value, the composed prompt holds the system
    instruction, the fenced report, the fenced schema and the additional
    instructions verbatim, in this order. *)
Theorem inputs_reach_prompt_in_order
        (family sys literal report instructions : text) (g0 : globals) :
  exists g a b c d e,
    run (compose_cells family sys literal report instructions) g0 = Ok g /\
    full_prompt g
    = a ++ sys ++ b ++ (FENCE ++ report ++ FENCE) ++ c
      ++ (FENCE ++ literal ++ FENCE) ++ d ++ instructions ++ e.
Proof.
  unfold compose_cells. run_cells.
  destruct (text_eqb family (txt "llama-2")); eexists.
  - exists (txt "[INST] <<SYS>>" ++ [NL]),
           ([NL] ++ txt "<</SYS>>" ++ [NL] ++ [NL]),
           ([NL] ++ REQUEST ++ [NL]), [NL],
           ([NL] ++ txt "[/INST]" ++ [NL]).
    split; [reflexivity |]. run_cells.
    unfold llama2_fstring, prompt_fstring. now rewrite <- !app_assoc.
  - exists (txt "<s>[INST] "), (txt " " ++ [NL]),
           ([NL] ++ REQUEST ++ [NL]), [NL], ([NL] ++ txt " [/INST]").
    split; [reflexivity |]. run_cells.
    unfold mistral_fstring, prompt_fstring. now rewrite <- !app_assoc.
Qed.

(** X14: the template matches the model file.  After the cells have run,
    either the repository and the file are those of Llama-2 and
    [full_prompt] is the Llama-2 template, or they are those of Mistral and
    [full_prompt] is the Mistral template; no family value mixes the
    two. *)
Theorem template_matches_model
        (family sys literal report instructions : text) (g0 : globals) :
  exists g,
    run (compose_cells family sys literal report instructions) g0 = Ok g /\
    ((model_name g = txt "TheBloke/Llama-2-7b-Chat-GGUF" /\
      model_basename g = txt "llama-2-7b-chat.Q4_K_M.gguf" /\
      full_prompt g = llama2_prompt_template g) \/
     (model_name g = txt "TheBloke/Mistral-7B-Instruct-v0.1-GGUF" /\
      model_basename g = txt "mistral-7b-instruct-v0.1.Q4_K_M.gguf" /\
      full_prompt g = mistral_prompt_template g)).
Proof.
  unfold compose_cells. run_cells. eexists. split; [reflexivity |].
  run_cells. destruct (text_eqb family (txt "llama-2")).
  - left. repeat split.
  - right. repeat split.
Qed.


End PromptExtras.
